(** * BusCard: the status and delay calculations of the bus card component

    A shallow embedding of [src/components/BusCard.tsx]: the activity window
    ([isActiveBus]), the interpolated delay ([getCurrentDelay]), its
    presentation ([renderDelay]), the betting eligibility ([canPlaceBet]) and
    the click handler ([handlePlaceBet]).

    JavaScript numbers are IEEE 754 binary64 values.  They are represented by
    the Standard Library's [spec_float]; every arithmetic operation is the
    exact rational result rounded to nearest, ties to even, as IEEE 754
    defines it. *)

From Stdlib Require Import ZArith QArith Qround Qpower Qabs Lia Lqa.
From Stdlib Require Import Bool List String Ascii.
From Stdlib Require Import Floats.SpecFloat.
Import ListNotations.

Set Implicit Arguments.

(** ** JavaScript numbers *)

Module Number.

Local Open Scope Q_scope.

Definition number := spec_float.

Definition NaN : number := S754_nan.
Definition Infinity : number := S754_infinity false.
Definition NegInfinity : number := S754_infinity true.

(** binary64: 53 bits of precision, exponents of the integral significand
    between [emin] and [emax - 53]. *)
Definition emax : Z := 1024.
Definition emin : Z := -1074.

Definition pow2 (e : Z) : Q := (2 # 1) ^ e.

(** The rational value of a finite number (and 0 for the others). *)
Definition val (x : number) : Q :=
  match x with
  | S754_finite s m e => inject_Z (if s then Z.neg m else Z.pos m) * pow2 e
  | _ => 0
  end.

(** [flog2 q] is the integer [k] with [2^k <= q < 2^(k+1)], for [0 < q]. *)
Definition flog2 (q : Q) : Z :=
  let k := (Z.log2 (Qnum q) - Z.log2 (Z.pos (Qden q)))%Z in
  if Qle_bool (pow2 k) q then k else (k - 1)%Z.

(** Nearest integer, ties to even. *)
Definition rne (q : Q) : Z :=
  let f := Qfloor q in
  match (q - inject_Z f ?= 1 # 2)%Q with
  | Lt => f
  | Gt => (f + 1)%Z
  | Eq => if Z.even f then f else (f + 1)%Z
  end.

(** Exponent and integral significand of the binary64 nearest to [0 < q]. *)
Definition fexp (q : Q) : Z := Z.max (flog2 q - 52) emin.
Definition mant (q : Q) : Z := rne (q * pow2 (- fexp q)).

Definition mk_number (s : bool) (m e : Z) : number :=
  match m with
  | Z.pos p =>
      if (emax <=? Z.log2 m + e)%Z then S754_infinity s
      else if (m =? 2 ^ 53)%Z then S754_finite s (2 ^ 52)%positive (e + 1)
      else S754_finite s p e
  | _ => S754_zero s
  end.

(** Round to nearest, ties to even, overflowing to an infinity. *)
Definition round64 (q : Q) : number :=
  match q ?= 0 with
  | Eq => S754_zero false
  | Gt => mk_number false (mant q) (fexp q)
  | Lt => mk_number true (mant (- q)) (fexp (- q))
  end.

Definition of_Z (z : Z) : number := round64 (inject_Z z).

(** [x - y] *)
Definition sub (x y : number) : number :=
  match x, y with
  | S754_nan, _ | _, S754_nan => S754_nan
  | S754_infinity sx, S754_infinity sy =>
      if Bool.eqb sx sy then S754_nan else x
  | S754_infinity _, _ => x
  | _, S754_infinity sy => S754_infinity (negb sy)
  | S754_zero sx, S754_zero sy => S754_zero (sx && negb sy)
  | _, _ => round64 (val x - val y)
  end.

(** [x * y] *)
Definition mul (x y : number) : number :=
  match x, y with
  | S754_nan, _ | _, S754_nan => S754_nan
  | S754_infinity _, S754_zero _ | S754_zero _, S754_infinity _ => S754_nan
  | S754_infinity sx, S754_infinity sy
  | S754_infinity sx, S754_finite sy _ _
  | S754_finite sx _ _, S754_infinity sy => S754_infinity (xorb sx sy)
  | S754_zero sx, S754_zero sy
  | S754_zero sx, S754_finite sy _ _
  | S754_finite sx _ _, S754_zero sy => S754_zero (xorb sx sy)
  | S754_finite _ _ _, S754_finite _ _ _ => round64 (val x * val y)
  end.

(** [x / y] *)
Definition div (x y : number) : number :=
  match x, y with
  | S754_nan, _ | _, S754_nan => S754_nan
  | S754_infinity _, S754_infinity _ | S754_zero _, S754_zero _ => S754_nan
  | S754_infinity sx, S754_zero sy
  | S754_infinity sx, S754_finite sy _ _
  | S754_finite sx _ _, S754_zero sy => S754_infinity (xorb sx sy)
  | S754_zero sx, S754_infinity sy
  | S754_zero sx, S754_finite sy _ _
  | S754_finite sx _ _, S754_infinity sy => S754_zero (xorb sx sy)
  | S754_finite _ _ _, S754_finite _ _ _ => round64 (val x / val y)
  end.

(** [x <= y]: false as soon as an operand is NaN. *)
Definition le (x y : number) : bool :=
  match x, y with
  | S754_nan, _ | _, S754_nan => false
  | S754_infinity true, _ | _, S754_infinity false => true
  | S754_infinity false, _ | _, S754_infinity true => false
  | _, _ => Qle_bool (val x) (val y)
  end.

(** [x < y] *)
Definition lt (x y : number) : bool :=
  match x, y with
  | S754_nan, _ | _, S754_nan => false
  | S754_infinity sx, S754_infinity sy => sx && negb sy
  | S754_infinity true, _ | _, S754_infinity false => true
  | S754_infinity false, _ | _, S754_infinity true => false
  | _, _ => negb (Qle_bool (val y) (val x))
  end.

(** [x >= y] and [x > y] are the same comparisons with the operands swapped. *)
Definition ge (x y : number) : bool := le y x.
Definition gt (x y : number) : bool := lt y x.

(** [Math.abs] *)
Definition Math_abs (x : number) : number :=
  match x with
  | S754_zero _ => S754_zero false
  | S754_infinity _ => S754_infinity false
  | S754_nan => S754_nan
  | S754_finite _ m e => S754_finite false m e
  end.

(** [Math.round]: the nearest integral number, the one closer to +Infinity
    when two are equally near; a negative argument that rounds to zero gives
    -0. *)
Definition Math_round (x : number) : number :=
  match x with
  | S754_finite s _ _ =>
      let n := Qfloor (val x + (1 # 2)) in
      if (n =? 0)%Z then S754_zero s else of_Z n
  | _ => x
  end.

(** *** Values, for reasoning about the operations *)

(** The value [0 < q] rounds to when it does not overflow. *)
Definition rndv (q : Q) : Q := inject_Z (mant q) * pow2 (fexp q).

(** The same for any rational. *)
Definition V (q : Q) : Q :=
  match q ?= 0 with
  | Eq => 0
  | Gt => rndv q
  | Lt => - rndv (- q)
  end.

(** Zeros and finite numbers. *)
Definition fin (x : number) : Prop :=
  match x with
  | S754_zero _ | S754_finite _ _ _ => True
  | _ => False
  end.

Definition sgn (s : bool) : Q := if s then - (1) else 1.

(** The unit roundoff of binary64, and the bounds of the factor five
    multiplications or divisions and one division by a rounded value put on a
    result. *)
Definition u : Q := pow2 (-53).

(** NaN and the infinities. *)
Definition nonfinite (x : number) : Prop :=
  match x with
  | S754_nan | S754_infinity _ => True
  | _ => False
  end.

(** Finite numbers of absolute value at most [2^n]. *)
Definition bnd (n : Z) (x : number) : Prop :=
  fin x /\ - pow2 n <= val x /\ val x <= pow2 n.

End Number.

(** ** Dates *)

Module JSDate.

Import Number.
Local Open Scope Z_scope.

(** A [Date] object is modelled by its time value: milliseconds since the
    epoch, or [None] for the NaN of an invalid date. *)
Definition Date := option Z.

Definition maxTime : Z := 8640000000000000.

Definition validTime (t : Z) : Prop := Z.abs t <= maxTime.

Definition TimeClip (t : option Z) : Date :=
  match t with
  | Some z => if Z.abs z <=? maxTime then Some z else None
  | None => None
  end.

(** [d.getTime()] *)
Definition getTime (d : Date) : number :=
  match d with
  | Some t => of_Z t
  | None => NaN
  end.

(** *** A parser for the UTC date-time strings [YYYY-MM-DDTHH:mm:ssZ] and
    [YYYY-MM-DDTHH:mm:ss.sssZ] of the ECMAScript date-time string format.
    The component is parametric in the parser; this one instantiates it in
    the examples. *)

Definition digit (c : ascii) : option Z :=
  let n := Z.of_nat (nat_of_ascii c) in
  if (48 <=? n) && (n <=? 57) then Some (n - 48) else None.

Fixpoint digits (n : nat) (acc : Z) (s : string) : option (Z * string) :=
  match n with
  | O => Some (acc, s)
  | S n' =>
      match s with
      | String c s' =>
          match digit c with
          | Some d => digits n' (10 * acc + d) s'
          | None => None
          end
      | EmptyString => None
      end
  end.

Definition expect (c : ascii) (s : string) : option string :=
  match s with
  | String c' s' => if Ascii.eqb c c' then Some s' else None
  | EmptyString => None
  end.

Definition isLeap (y : Z) : bool :=
  ((y mod 4 =? 0) && negb (y mod 100 =? 0)) || (y mod 400 =? 0).

Definition daysInMonth (y m : Z) : Z :=
  if m =? 2 then (if isLeap y then 29 else 28)
  else if (m =? 4) || (m =? 6) || (m =? 9) || (m =? 11) then 30
  else 31.

(** Days from 1970-01-01 to the given civil date. *)
Definition daysFromCivil (y m d : Z) : Z :=
  let y' := if m <=? 2 then y - 1 else y in
  let era := y' / 400 in
  let yoe := y' - era * 400 in
  let doy := (153 * (if 2 <? m then m - 3 else m + 9) + 2) / 5 + d - 1 in
  let doe := yoe * 365 + yoe / 4 - yoe / 100 + doy in
  era * 146097 + doe - 719468.

Definition parseFraction (s : string) : option (Z * string) :=
  match expect "." s with
  | Some s' => digits 3 0 s'
  | None => Some (0, s)
  end.

Definition parseISO (s : string) : option Z :=
  match digits 4 0 s with
  | Some (y, s) =>
  match expect "-" s with
  | Some s =>
  match digits 2 0 s with
  | Some (mo, s) =>
  match expect "-" s with
  | Some s =>
  match digits 2 0 s with
  | Some (d, s) =>
  match expect "T" s with
  | Some s =>
  match digits 2 0 s with
  | Some (h, s) =>
  match expect ":" s with
  | Some s =>
  match digits 2 0 s with
  | Some (mi, s) =>
  match expect ":" s with
  | Some s =>
  match digits 2 0 s with
  | Some (sec, s) =>
  match parseFraction s with
  | Some (ms, s) =>
  match expect "Z" s with
  | Some EmptyString =>
      if (1 <=? mo) && (mo <=? 12) && (1 <=? d) && (d <=? daysInMonth y mo)
         && (h <=? 23) && (mi <=? 59) && (sec <=? 59)
      then Some ((((daysFromCivil y mo d * 24 + h) * 60 + mi) * 60 + sec)
                 * 1000 + ms)
      else None
  | _ => None end
  | None => None end
  | None => None end
  | None => None end
  | None => None end
  | None => None end
  | None => None end
  | None => None end
  | None => None end
  | None => None end
  | None => None end
  | None => None end
  | None => None end.

End JSDate.

(** ** The data the component works on *)

Import Number JSDate.

(** The fields of [BusData] the component reads.  The two departure fields
    are tested for falsiness by the source, so they may be missing. *)
Record BusData := {
  id : string;
  routeNumber : string;
  origin : string;
  destination : string;
  direction : string;
  operator : string;
  vehicleId : string;
  recordedAt : string;
  scheduledDeparture : option string;
  expectedDeparture : option string;
  scheduledArrival : string
}.

Inductive Prediction := early | late.

Definition Prediction_str (p : Prediction) : string :=
  match p with early => "early" | late => "late" end.

(** A bet of the user store. *)
Record Bet := {
  busId : string;
  amount : number;
  prediction : Prediction;
  resolved : bool
}.

(** The argument of the store's [placeBet]. *)
Record BetRequest := {
  req_busId : string;
  req_amount : number;
  req_prediction : Prediction;
  req_routeNumber : string
}.

Record Store := {
  balance : number;
  bets : list Bet
}.

(** Text with interpolated values: JSX children and template literals. *)
Inductive Piece :=
| Txt (s : string)
| Num (n : number).

Record Badge := {
  variant : string;
  children : list Piece
}.

Record Toast := {
  title : string;
  description : list Piece
}.

(** ** Effects: the clock, the user store and the notifications *)

Inductive Event :=
| PlaceBetCall (r : BetRequest)
| ToastCall (t : Toast).

Record World := {
  clock : Z;
  store : Store;
  events : list Event
}.

Definition M (A : Type) : Type := World -> A * World.

Definition ret {A} (a : A) : M A := fun w => (a, w).

Definition bind {A B} (m : M A) (f : A -> M B) : M B :=
  fun w => let (a, w') := m w in f a w'.

Notation "x <- m ;; k" := (bind m (fun x => k))
  (at level 61, m at next level, right associativity).
Notation "m ;;; k" := (bind m (fun _ => k))
  (at level 61, right associativity).

Definition eval {A} (m : M A) (w : World) : A := fst (m w).
Definition exec {A} (m : M A) (w : World) : World := snd (m w).

(** [new Date().getTime()] *)
Definition Date_now : M number := fun w => (of_Z (clock w), w).

(** [useUserStore()]: the balance and the bets of the store. *)
Definition useUserStore : M Store := fun w => (store w, w).

(** [toast({...})] *)
Definition toast (t : Toast) : M unit :=
  fun w => (tt, {| clock := clock w; store := store w;
                   events := events w ++ [ToastCall t] |}).

(** A value of an optional string field is truthy when it is a non-empty
    string. *)
Definition truthy (v : option string) : bool :=
  match v with
  | Some s => negb (s =? "")%string
  | None => false
  end.

(** [a || b] on optional strings *)
Definition or_else (a b : option string) : option string :=
  if truthy a then a else b.

(** The pound sign of the toast's description. *)
Definition pound : string := String (ascii_of_nat 163) EmptyString.

(** ** The component *)

Section BusCard.

(** The string parser of [new Date(string)], and the store's [placeBet];
    both live outside the component. *)
Variable Date_parse : string -> option Z.
Variable placeBet : BetRequest -> Store -> Store.

(** [new Date(v)] for an optional string [v]. *)
Definition new_Date (v : option string) : Date :=
  match v with
  | Some s => TimeClip (Date_parse s)
  | None => None
  end.

Definition call_placeBet (r : BetRequest) : M unit :=
  fun w => (tt, {| clock := clock w; store := placeBet r (store w);
                   events := events w ++ [PlaceBetCall r] |}).

Definition departureTime (bus : BusData) : option string :=
  or_else (expectedDeparture bus) (scheduledDeparture bus).

Definition isActiveBus (bus : BusData) : M bool :=
  now <- Date_now ;;
  let departure := getTime (new_Date (departureTime bus)) in
  let arrival := getTime (new_Date (Some (scheduledArrival bus))) in
  ret (le departure now && le now arrival).

Definition getCurrentDelay (bus : BusData) : M (option number) :=
  if negb (truthy (expectedDeparture bus))
     || negb (truthy (scheduledDeparture bus))
  then ret None
  else
    now <- Date_now ;;
    let currentExpected := getTime (new_Date (expectedDeparture bus)) in
    let currentScheduled := getTime (new_Date (scheduledDeparture bus)) in
    let totalJourneyTime :=
      sub (getTime (new_Date (Some (scheduledArrival bus))))
          (getTime (new_Date (scheduledDeparture bus))) in
    let timeElapsed := sub now (getTime (new_Date (scheduledDeparture bus))) in
    let journeyProportion := div timeElapsed totalJourneyTime in
    let delay := sub currentExpected currentScheduled in
    ret (Some (Math_round (div (mul delay journeyProportion)
                               (mul (of_Z 1000) (of_Z 60))))).

Definition renderDelay (bus : BusData) : M (option Badge) :=
  delay <- getCurrentDelay bus ;;
  match delay with
  | None => ret None
  | Some delay =>
      if lt (Math_abs delay) (of_Z 1)
      then ret (Some {| variant := "outline"; children := [Txt "On Time"] |})
      else if gt delay (of_Z 0)
      then ret (Some {| variant := "destructive";
                        children := [Num delay; Txt " mins behind"] |})
      else ret (Some {| variant := "default";
                        children := [Num (Math_abs delay);
                                     Txt " mins ahead"] |})
  end.

(** What one rendering of the card computes and its handlers close over. *)
Record Rendering := {
  r_bus : BusData;
  r_betAmount : number;
  existingBet : option Bet;
  canPlaceBet : bool
}.

Definition render (bus : BusData) (betAmount : number) : M Rendering :=
  st <- useUserStore ;;
  let existingBet :=
    find (fun b => (busId b =? id bus)%string && negb (resolved b))
         (bets st) in
  active <- isActiveBus bus ;;
  let canPlaceBet :=
    active
    && negb (match existingBet with Some _ => true | None => false end)
    && ge (balance st) betAmount in
  ret {| r_bus := bus; r_betAmount := betAmount;
         existingBet := existingBet; canPlaceBet := canPlaceBet |}.

Definition handlePlaceBet (r : Rendering) (prediction : Prediction) : M unit :=
  if negb (canPlaceBet r) then ret tt
  else
    call_placeBet {| req_busId := id (r_bus r);
                     req_amount := r_betAmount r;
                     req_prediction := prediction;
                     req_routeNumber := routeNumber (r_bus r) |} ;;;
    toast {| title := "Bet Placed!";
             description := [Txt pound; Num (r_betAmount r);
                             Txt " on bus "; Txt (routeNumber (r_bus r));
                             Txt " arriving ";
                             Txt (Prediction_str prediction)] |}.

End BusCard.

Arguments existingBet : clear implicits.
Arguments canPlaceBet : clear implicits.

(** The three badges of [renderDelay]. *)
Definition onTimeBadge : Badge :=
  {| variant := "outline"; children := [Txt "On Time"] |}.
Definition behindBadge (d : number) : Badge :=
  {| variant := "destructive"; children := [Num d; Txt " mins behind"] |}.
Definition aheadBadge (d : number) : Badge :=
  {| variant := "default"; children := [Num (Math_abs d); Txt " mins ahead"] |}.

(** ** What the card shows

    The parts of the returned element that depend on the data: the class of
    the route button, the delay badge, the texts, and the betting controls.
    The fixed layout around them is left out. *)

(** The betting controls: the stake input, the two buttons and the note on
    an existing bet. *)
Record BetControls := {
  input_max : number;
  input_value : number;
  early_disabled : bool;
  late_disabled : bool;
  betNote : option (list Piece)
}.

Record Card := {
  routeNumberClass : string;
  routeLabel : string;
  delayBadge : option Badge;
  fromText : string;
  toText : string;
  departureText : string;
  arrivalText : string;
  directionText : string;
  operatorText : string;
  busIdText : string;
  lastUpdated : string;
  betControls : option BetControls
}.

Section CardView.

Variable Date_parse : string -> option Z.

(** [formatDateTime] of [utils/dateFormat]. *)
Variable formatDateTime : option string -> string.

(** [You bet £{existingBet.amount} on this bus arriving
    {existingBet.prediction}] *)
Definition existingBetNote (b : Bet) : list Piece :=
  [Txt ("You bet " ++ pound); Num (amount b);
   Txt " on this bus arriving "; Txt (Prediction_str (prediction b))].

(** [BusCard({ bus, onRouteClick })], with the [betAmount] of its state. *)
Definition BusCard (bus : BusData) (betAmount : number) : M Card :=
  st <- useUserStore ;;
  r <- render Date_parse bus betAmount ;;
  activeClass <- isActiveBus Date_parse bus ;;
  let routeNumberClass : string :=
    (if activeClass then "bg-green-500 text-white"
     else "bg-red-500 text-white")%string in
  activeDelay <- isActiveBus Date_parse bus ;;
  badge <- (if activeDelay then renderDelay Date_parse bus else ret None) ;;
  activeControls <- isActiveBus Date_parse bus ;;
  ret {| routeNumberClass := routeNumberClass;
         routeLabel := routeNumber bus;
         delayBadge := badge;
         fromText := origin bus;
         toText := destination bus;
         departureText := formatDateTime (departureTime bus);
         arrivalText := formatDateTime (Some (scheduledArrival bus));
         directionText := direction bus;
         operatorText := operator bus;
         busIdText := vehicleId bus;
         lastUpdated := formatDateTime (Some (recordedAt bus));
         betControls :=
           if activeControls
           then Some {| input_max := balance st;
                        input_value := betAmount;
                        early_disabled := negb (canPlaceBet r);
                        late_disabled := negb (canPlaceBet r);
                        betNote :=
                          match existingBet r with
                          | Some b => Some (existingBetNote b)
                          | None => None
                          end |}
           else None |}.

(** Every call of [isActiveBus] and of [getCurrentDelay] makes its own
    [new Date()].  [BusCardTimed] is the card with the instant of each of the
    five readings given: [t1] for [canPlaceBet], [t2] for the class of the
    route button, [t3] and [t4] for the delay badge and its delay, [t5] for
    the betting controls. *)
Definition clockShows (t : Z) : M unit :=
  fun w => (tt, {| clock := t; store := store w; events := events w |}).

Definition BusCardTimed (bus : BusData) (betAmount : number)
    (t1 t2 t3 t4 t5 : Z) : M Card :=
  st <- useUserStore ;;
  clockShows t1 ;;;
  r <- render Date_parse bus betAmount ;;
  clockShows t2 ;;;
  activeClass <- isActiveBus Date_parse bus ;;
  let routeNumberClass : string :=
    (if activeClass then "bg-green-500 text-white"
     else "bg-red-500 text-white")%string in
  clockShows t3 ;;;
  activeDelay <- isActiveBus Date_parse bus ;;
  clockShows t4 ;;;
  badge <- (if activeDelay then renderDelay Date_parse bus else ret None) ;;
  clockShows t5 ;;;
  activeControls <- isActiveBus Date_parse bus ;;
  ret {| routeNumberClass := routeNumberClass;
         routeLabel := routeNumber bus;
         delayBadge := badge;
         fromText := origin bus;
         toText := destination bus;
         departureText := formatDateTime (departureTime bus);
         arrivalText := formatDateTime (Some (scheduledArrival bus));
         directionText := direction bus;
         operatorText := operator bus;
         busIdText := vehicleId bus;
         lastUpdated := formatDateTime (Some (recordedAt bus));
         betControls :=
           if activeControls
           then Some {| input_max := balance st;
                        input_value := betAmount;
                        early_disabled := negb (canPlaceBet r);
                        late_disabled := negb (canPlaceBet r);
                        betNote :=
                          match existingBet r with
                          | Some b => Some (existingBetNote b)
                          | None => None
                          end |}
           else None |}.

End CardView.

(** ** The specification's wording of the two derivations *)

Module Spec.

Section Spec.

Variable Date_parse : string -> option Z.

(** A departure field is present when it holds a timestamp: a non-empty
    string. *)
Definition present (v : option string) : Prop :=
  exists s, v = Some s /\ s <> ""%string.

(** Effective departure: expected departure if known, else scheduled
    departure. *)
Definition effectiveDeparture (bus : BusData) : option string :=
  match expectedDeparture bus with
  | Some s => if (s =? "")%string then scheduledDeparture bus else Some s
  | None => scheduledDeparture bus
  end.

(** The derivation of the delay, on instants in milliseconds and in exact
    arithmetic: [S] the scheduled departure, [A] the scheduled arrival, [E]
    the expected departure. *)

Definition totalJourney (S A : Z) : Q := inject_Z A - inject_Z S.

Definition elapsed (S now : Z) : Q := inject_Z now - inject_Z S.

Definition journeyProportion (S A now : Z) : Q :=
  elapsed S now / totalJourney S A.






End Spec.

End Spec.

(** ** The delay as a function of the time values

    [delayAt S A E now] is what [getCurrentDelay] computes from the time
    values of the scheduled departure [S], the scheduled arrival [A], the
    expected departure [E] and the clock. *)

Definition delayAt (S A E now : Z) : number :=
  Math_round
    (div (mul (sub (of_Z E) (of_Z S))
              (div (sub (of_Z now) (of_Z S)) (sub (of_Z A) (of_Z S))))
         (of_Z 60000)).


(** The value of [delayAt], with the roundings of its operations. *)
Definition delayValue (S A E now : Z) : Q :=
  V (inject_Z (Qfloor
       (V (V (V (inject_Z E - inject_Z S)
              * V (V (inject_Z now - inject_Z S)
                   / V (inject_Z A - inject_Z S)))
           / 60000) + (1 # 2))))%Q.

(** ** Inputs of the examples *)

Module Examples.

Local Open Scope string_scope.

Definition mkBus (scheduled expected : option string) (arrival : string)
  : BusData :=
  {| id := "bus-17"; routeNumber := "42"; origin := "Depot";
     destination := "Harbour"; direction := "outbound";
     operator := "City Lines"; vehicleId := "V-204";
     recordedAt := "2024-01-01T09:45:00Z";
     scheduledDeparture := scheduled; expectedDeparture := expected;
     scheduledArrival := arrival |}.

Definition emptyStore : Store := {| balance := of_Z 10; bets := [] |}.

Definition worldAt (now : string) (st : Store) : World :=
  {| clock := match parseISO now with Some t => t | None => 0%Z end;
     store := st; events := [] |}.

(** Scheduled 10:00, expected 10:10, arriving 11:00. *)
Definition lateBus : BusData :=
  mkBus (Some "2024-01-01T10:00:00Z") (Some "2024-01-01T10:10:00Z")
        "2024-01-01T11:00:00Z".

(** Scheduled 10:00, expected 09:52, arriving 11:00. *)
Definition earlyBus : BusData :=
  mkBus (Some "2024-01-01T10:00:00Z") (Some "2024-01-01T09:52:00Z")
        "2024-01-01T11:00:00Z".

(** Scheduled to depart and to arrive at 10:00, expected at 09:50. *)
Definition degenerateBus : BusData :=
  mkBus (Some "2024-01-01T10:00:00Z") (Some "2024-01-01T09:50:00Z")
        "2024-01-01T10:00:00Z".

(** No expected departure. *)
Definition unrevisedBus : BusData :=
  mkBus (Some "2024-01-01T10:00:00Z") None "2024-01-01T11:00:00Z".

(** An empty expected departure. *)
Definition blankBus : BusData :=
  mkBus (Some "2024-01-01T10:00:00Z") (Some "") "2024-01-01T11:00:00Z".

(** A store that forgets nothing: [placeBet] records the bet and takes the
    stake. *)
Definition recordBet (r : BetRequest) (st : Store) : Store :=
  {| balance := sub (balance st) (req_amount r);
     bets := {| busId := req_busId r; amount := req_amount r;
                prediction := req_prediction r; resolved := false |}
             :: bets st |}.

Definition openBet : Bet :=
  {| busId := "bus-17"; amount := of_Z 2; prediction := late;
     resolved := false |}.

(** Worlds: the clock on 2024-01-01, and the store. *)
Definition tenTen : World := worldAt "2024-01-01T10:10:00Z" emptyStore.
Definition tenFifteen : World := worldAt "2024-01-01T10:15:00Z" emptyStore.
Definition halfPast : World := worldAt "2024-01-01T10:30:00Z" emptyStore.
Definition quarterTo : World := worldAt "2024-01-01T10:45:00Z" emptyStore.
Definition eleven : World := worldAt "2024-01-01T11:00:00Z" emptyStore.

(** Half past ten, with an open bet on the bus. *)
Definition halfPastBetting : World :=
  worldAt "2024-01-01T10:30:00Z" {| balance := of_Z 3; bets := [openBet] |}.

(** The card's texts show the timestamps as they are. *)
Definition showTimestamp (v : option string) : string :=
  match v with Some s => s | None => "" end.

(** A bus whose arrival does not parse, and one expected after its
    scheduled arrival. *)
Definition garbledBus : BusData :=
  mkBus (Some "2024-01-01T10:00:00Z") (Some "2024-01-01T10:10:00Z")
        "eleven o'clock".

Definition stuckBus : BusData :=
  mkBus (Some "2024-01-01T10:00:00Z") (Some "2024-01-01T11:30:00Z")
        "2024-01-01T11:00:00Z".

(** Expected exactly on time. *)
Definition punctualBus : BusData :=
  mkBus (Some "2024-01-01T10:00:00Z") (Some "2024-01-01T10:00:00Z")
        "2024-01-01T11:00:00Z".

Definition nineFiftyFive : World := worldAt "2024-01-01T09:55:00Z" emptyStore.
Definition tenSharp : World := worldAt "2024-01-01T10:00:00Z" emptyStore.



End Examples.

(** * Properties *)

(** ** Rounding and the arithmetic of numbers *)

Module NumberFacts.

Import Number.
Local Open Scope Q_scope.

Lemma two_neq0 : ~ (2 # 1) == 0.
Proof. discriminate. Qed.

Lemma pow2_pos e : 0 < pow2 e.
Proof. apply Qpower_0_lt. reflexivity. Qed.

Lemma pow2_add a b : pow2 (a + b) == pow2 a * pow2 b.
Proof. apply Qpower_plus, two_neq0. Qed.


Lemma pow2_cancel e : pow2 e * pow2 (- e) == 1.
Proof.
  rewrite <- pow2_add. replace (e + - e)%Z with 0%Z by lia. reflexivity.
Qed.

Lemma pow2_le a b : (a <= b)%Z -> pow2 a <= pow2 b.
Proof. intros H. apply Qpower_le_compat_l; [exact H | discriminate]. Qed.

Lemma pow2_lt a b : (a < b)%Z -> pow2 a < pow2 b.
Proof. intros H. apply Qpower_lt_compat_l; [exact H | reflexivity]. Qed.

Lemma pow2_lt_inv a b : pow2 a < pow2 b -> (a < b)%Z.
Proof. intros H. apply Qpower_lt_compat_l_inv with (q := 2 # 1); [exact H | reflexivity]. Qed.

Lemma pow2_le_inv a b : pow2 a <= pow2 b -> (a <= b)%Z.
Proof. intros H. apply Qpower_le_compat_l_inv with (q := 2 # 1); [exact H | reflexivity]. Qed.

Lemma pow2_Z e : (0 <= e)%Z -> pow2 e == inject_Z (2 ^ e).
Proof. intros H. unfold pow2. rewrite Zpower_Qpower by exact H. reflexivity. Qed.

Lemma pow2_succ e : pow2 (e + 1) == 2 * pow2 e.
Proof. rewrite pow2_add. unfold pow2 at 2. simpl. ring. Qed.

(** Moving a power of two across an inequality. *)
Lemma scale_le q r e : q <= r -> q * pow2 e <= r * pow2 e.
Proof. intros H. apply Qmult_le_compat_r; [exact H | apply Qlt_le_weak, pow2_pos]. Qed.

Lemma scale_lt q r e : q < r -> q * pow2 e < r * pow2 e.
Proof. intros H. apply Qmult_lt_compat_r; [apply pow2_pos | exact H]. Qed.


Lemma flog2_spec q : 0 < q -> pow2 (flog2 q) <= q /\ q < pow2 (flog2 q + 1).
Proof.
  intros Hq. destruct q as [n d]. unfold flog2. cbn [Qnum Qden].
  assert (Hn : (0 < n)%Z) by (unfold Qlt in Hq; cbn in Hq; lia).
  set (a := Z.log2 n). set (b := Z.log2 (Z.pos d)).
  destruct (Z.log2_spec n Hn) as [Ha1 Ha2]. fold a in Ha1, Ha2.
  destruct (Z.log2_spec (Z.pos d) eq_refl) as [Hb1 Hb2]. fold b in Hb1, Hb2.
  assert (Ha0 : (0 <= a)%Z) by apply Z.log2_nonneg.
  assert (Hb0 : (0 <= b)%Z) by apply Z.log2_nonneg.
  assert (Hqd : (n # d) * inject_Z (Z.pos d) == inject_Z n).
  { unfold Qeq, Qmult, inject_Z. cbn. nia. }
  (* 2^(a-b-1) < n/d < 2^(a-b+1) *)
  assert (Hup : n # d < pow2 (a - b + 1)).
  { replace (a - b + 1)%Z with ((a + 1) + - b)%Z by lia.
    rewrite pow2_add.
    apply Qmult_lt_r with (z := pow2 b); [apply pow2_pos|].
    rewrite <- Qmult_assoc, (Qmult_comm (pow2 (- b))), pow2_cancel, Qmult_1_r.
    apply Qle_lt_trans with (y := (n # d) * inject_Z (Z.pos d)).
    - apply Qmult_le_l; [exact Hq|]. rewrite pow2_Z by exact Hb0.
      rewrite <- Zle_Qle. exact Hb1.
    - rewrite Hqd, pow2_Z by lia. rewrite <- Zlt_Qlt. exact Ha2. }
  assert (Hlo : pow2 (a - b - 1) < n # d).
  { replace (a - b - 1)%Z with (a + - (b + 1))%Z by lia.
    rewrite pow2_add.
    apply Qmult_lt_r with (z := pow2 (b + 1)); [apply pow2_pos|].
    rewrite <- Qmult_assoc, (Qmult_comm (pow2 (- (b + 1)))), pow2_cancel, Qmult_1_r.
    apply Qle_lt_trans with (y := (n # d) * inject_Z (Z.pos d)).
    - rewrite Hqd, pow2_Z by lia. rewrite <- Zle_Qle. exact Ha1.
    - apply Qmult_lt_l; [exact Hq|]. rewrite pow2_Z by lia.
      rewrite <- Zlt_Qlt. exact Hb2. }
  destruct (Qle_bool (pow2 (a - b)) (n # d)) eqn:E.
  - apply Qle_bool_iff in E. split; assumption.
  - split.
    + apply Qlt_le_weak. exact Hlo.
    + replace (a - b - 1 + 1)%Z with (a - b)%Z by lia.
      apply Qnot_le_lt. intros H. apply Qle_bool_iff in H. congruence.
Qed.

Lemma flog2_unique q k : pow2 k <= q -> q < pow2 (k + 1) -> flog2 q = k.
Proof.
  intros H1 H2.
  assert (Hq : 0 < q) by (eapply Qlt_le_trans; [apply pow2_pos | exact H1]).
  destruct (flog2_spec Hq) as [H3 H4].
  assert (flog2 q < k + 1)%Z by (apply pow2_lt_inv; eapply Qle_lt_trans; eassumption).
  assert (k < flog2 q + 1)%Z by (apply pow2_lt_inv; eapply Qle_lt_trans; eassumption).
  lia.
Qed.

Lemma flog2_mono q r : 0 < q -> q <= r -> (flog2 q <= flog2 r)%Z.
Proof.
  intros Hq Hqr.
  assert (Hr : 0 < r) by (eapply Qlt_le_trans; eassumption).
  destruct (flog2_spec Hq) as [H1 _]. destruct (flog2_spec Hr) as [_ H2].
  assert (flog2 q < flog2 r + 1)%Z.
  { apply pow2_lt_inv. eapply Qle_lt_trans; [exact H1|].
    eapply Qle_lt_trans; eassumption. }
  lia.
Qed.

(** *** Rounding to the nearest integer *)

Lemma rne_comp q r : q == r -> rne q = rne r.
Proof.
  intros H. unfold rne. rewrite (Qfloor_comp _ _ H).
  assert (E : (q - inject_Z (Qfloor r) ?= 1 # 2) = (r - inject_Z (Qfloor r) ?= 1 # 2)).
  { apply Qcompare_comp; [rewrite H|]; reflexivity. }
  rewrite E. reflexivity.
Qed.

Lemma rne_bounds q : (Qfloor q <= rne q <= Qfloor q + 1)%Z.
Proof.
  unfold rne. destruct (_ ?= _); [destruct (Z.even _)| |]; lia.
Qed.

Lemma rne_Z z : rne (inject_Z z) = z.
Proof.
  unfold rne. rewrite Qfloor_Z.
  assert (E : (inject_Z z - inject_Z z ?= 1 # 2) = Lt).
  { rewrite <- Qlt_alt. ring_simplify. reflexivity. }
  rewrite E. reflexivity.
Qed.

Lemma rne_mono q r : q <= r -> (rne q <= rne r)%Z.
Proof.
  intros H. pose proof (Qfloor_resp_le _ _ H) as Hf.
  destruct (Z.eq_dec (Qfloor q) (Qfloor r)) as [E|N].
  - unfold rne. rewrite <- E.
    destruct (q - inject_Z (Qfloor q) ?= 1 # 2) eqn:Cq;
      destruct (r - inject_Z (Qfloor q) ?= 1 # 2) eqn:Cr;
      try (destruct (Z.even (Qfloor q))); try lia; exfalso;
      try apply Qeq_alt in Cq; try apply Qeq_alt in Cr;
      try rewrite <- Qlt_alt in Cq; try rewrite <- Qlt_alt in Cr;
      try rewrite <- Qgt_alt in Cq; try rewrite <- Qgt_alt in Cr; lra.
  - pose proof (rne_bounds q). pose proof (rne_bounds r). lia.
Qed.

Lemma rne_le_Z q z : q <= inject_Z z -> (rne q <= z)%Z.
Proof. intros H. rewrite <- (rne_Z z). apply rne_mono, H. Qed.

Lemma rne_ge_Z q z : inject_Z z <= q -> (z <= rne q)%Z.
Proof. intros H. rewrite <- (rne_Z z). apply rne_mono, H. Qed.

(** *** Significand and exponent *)

Lemma fexp_ge_emin q : (emin <= fexp q)%Z.
Proof. unfold fexp. lia. Qed.

Lemma fexp_mono q r : 0 < q -> q <= r -> (fexp q <= fexp r)%Z.
Proof. intros Hq H. pose proof (flog2_mono Hq H). unfold fexp. lia. Qed.

Lemma mant_le q : 0 < q -> (mant q <= 2 ^ 53)%Z.
Proof.
  intros Hq. unfold mant. apply rne_le_Z.
  destruct (flog2_spec Hq) as [_ H].
  apply Qlt_le_weak.
  apply Qlt_le_trans with (y := pow2 (flog2 q + 1) * pow2 (- fexp q)).
  - apply scale_lt, H.
  - rewrite <- pow2_add. change (inject_Z (2 ^ 53)) with (pow2 53).
    apply pow2_le. unfold fexp. lia.
Qed.

Lemma mant_ge q : 0 < q -> fexp q = (flog2 q - 52)%Z -> (2 ^ 52 <= mant q)%Z.
Proof.
  intros Hq He. unfold mant. apply rne_ge_Z.
  destruct (flog2_spec Hq) as [H _].
  apply Qle_trans with (y := pow2 (flog2 q) * pow2 (- fexp q)).
  - rewrite <- pow2_add. change (inject_Z (2 ^ 52)) with (pow2 52).
    apply pow2_le. lia.
  - apply scale_le, H.
Qed.

Lemma mant_nonneg q : 0 < q -> (0 <= mant q)%Z.
Proof.
  intros Hq. unfold mant. apply rne_ge_Z.
  apply Qmult_le_0_compat; apply Qlt_le_weak; [exact Hq | apply pow2_pos].
Qed.

(** *** The value a positive rational rounds to *)

Lemma rndv_nonneg q : 0 < q -> 0 <= rndv q.
Proof.
  intros Hq. unfold rndv. apply Qmult_le_0_compat.
  - change 0 with (inject_Z 0). rewrite <- Zle_Qle. apply mant_nonneg, Hq.
  - apply Qlt_le_weak, pow2_pos.
Qed.

Lemma rndv_mono q r : 0 < q -> q <= r -> rndv q <= rndv r.
Proof.
  intros Hq H.
  assert (Hr : 0 < r) by (eapply Qlt_le_trans; eassumption).
  pose proof (fexp_mono Hq H) as He. unfold rndv.
  destruct (Z.eq_dec (fexp q) (fexp r)) as [E|N].
  - rewrite <- E. apply scale_le. rewrite <- Zle_Qle.
    unfold mant. rewrite <- E. apply rne_mono, scale_le, H.
  - assert (Er : fexp r = (flog2 r - 52)%Z).
    { pose proof (fexp_ge_emin q). unfold fexp in *. lia. }
    apply Qle_trans with (y := pow2 53 * pow2 (fexp q)).
    + apply scale_le. change (pow2 53) with (inject_Z (2 ^ 53)).
      rewrite <- Zle_Qle. apply mant_le, Hq.
    + apply Qle_trans with (y := pow2 52 * pow2 (fexp r)).
      * rewrite <- !pow2_add. apply pow2_le. lia.
      * apply scale_le. change (pow2 52) with (inject_Z (2 ^ 52)).
        rewrite <- Zle_Qle. apply mant_ge; assumption.
Qed.

Lemma rndv_comp q r : q == r -> 0 < q -> rndv q == rndv r.
Proof.
  intros E Hq. apply Qle_antisym; apply rndv_mono; rewrite ?E; try lra.
Qed.

(** *** The value any rational rounds to, overflow apart *)

Lemma V_pos q : 0 < q -> V q = rndv q.
Proof. intros H. unfold V. rewrite Qgt_alt in H. rewrite H. reflexivity. Qed.

Lemma V_neg q : q < 0 -> V q = - rndv (- q).
Proof. intros H. unfold V. rewrite Qlt_alt in H. rewrite H. reflexivity. Qed.

Lemma V_zero q : q == 0 -> V q = 0.
Proof. intros H. unfold V. rewrite Qeq_alt in H. rewrite H. reflexivity. Qed.

Lemma V_mono q r : q <= r -> V q <= V r.
Proof.
  intros H.
  destruct (Q_dec q 0) as [[Hq|Hq]|Hq]; destruct (Q_dec r 0) as [[Hr|Hr]|Hr];
    try (exfalso; lra).
  - rewrite (V_neg Hq), (V_neg Hr). apply Qopp_le_compat.
    apply rndv_mono; lra.
  - rewrite (V_neg Hq), (V_pos Hr).
    assert (0 <= rndv (- q)) by (apply rndv_nonneg; lra).
    assert (0 <= rndv r) by (apply rndv_nonneg; lra). lra.
  - rewrite (V_neg Hq), (V_zero Hr).
    assert (0 <= rndv (- q)) by (apply rndv_nonneg; lra). lra.
  - rewrite (V_pos Hq), (V_pos Hr). apply rndv_mono; lra.
  - rewrite (V_zero Hq), (V_pos Hr). apply rndv_nonneg; lra.
  - rewrite (V_zero Hq), (V_zero Hr). lra.
Qed.

Lemma V_opp q : V (- q) == - V q.
Proof.
  destruct (Q_dec q 0) as [[Hq|Hq]|Hq].
  - rewrite (V_neg Hq), V_pos by lra. ring.
  - rewrite (V_pos Hq), V_neg by lra.
    rewrite (@rndv_comp (- - q) q); [reflexivity | ring | lra].
  - rewrite (V_zero Hq), V_zero by lra. reflexivity.
Qed.

Lemma V_comp q r : q == r -> V q == V r.
Proof. intros E. apply Qle_antisym; apply V_mono; lra. Qed.

Lemma rndv_pow2 n : (-1022 <= n)%Z -> rndv (pow2 n) == pow2 n.
Proof.
  intros Hn.
  assert (Hk : flog2 (pow2 n) = n).
  { apply flog2_unique; [apply Qle_refl | apply pow2_lt; lia]. }
  assert (He : fexp (pow2 n) = (n - 52)%Z) by (unfold fexp, emin; lia).
  unfold rndv, mant. rewrite He.
  rewrite (@rne_comp _ (inject_Z (2 ^ 52))).
  - rewrite rne_Z. change (inject_Z (2 ^ 52)) with (pow2 52).
    rewrite <- pow2_add. replace (52 + (n - 52))%Z with n by lia. reflexivity.
  - rewrite <- pow2_add. replace (n + - (n - 52))%Z with 52%Z by lia.
    reflexivity.
Qed.

Lemma V_pow2 n : (-1022 <= n)%Z -> V (pow2 n) == pow2 n.
Proof. intros Hn. rewrite V_pos by apply pow2_pos. apply rndv_pow2, Hn. Qed.

(** Integers below [2^53] are represented exactly. *)
Lemma rndv_Z z : (0 < z < 2 ^ 53)%Z -> rndv (inject_Z z) == inject_Z z.
Proof.
  intros Hz.
  assert (Hq : 0 < inject_Z z) by (change 0 with (inject_Z 0); rewrite <- Zlt_Qlt; lia).
  destruct (flog2_spec Hq) as [H1 H2].
  set (k := flog2 (inject_Z z)) in *.
  assert (Hk : (0 <= k <= 52)%Z).
  { split.
    - assert (0 < k + 1)%Z; [|lia]. apply pow2_lt_inv.
      eapply Qle_lt_trans; [|exact H2].
      change (pow2 0) with (inject_Z 1). rewrite <- Zle_Qle. lia.
    - assert (k < 53)%Z; [|lia]. apply pow2_lt_inv.
      eapply Qle_lt_trans; [exact H1|].
      change (pow2 53) with (inject_Z (2 ^ 53)). rewrite <- Zlt_Qlt. lia. }
  assert (He : fexp (inject_Z z) = (k - 52)%Z) by (unfold fexp, emin; fold k; lia).
  unfold rndv, mant. rewrite He.
  rewrite (@rne_comp _ (inject_Z (z * 2 ^ (52 - k)))).
  - rewrite rne_Z, inject_Z_mult, <- pow2_Z by lia.
    rewrite <- Qmult_assoc, <- pow2_add.
    replace (52 - k + (k - 52))%Z with 0%Z by lia. change (pow2 0) with 1. ring.
  - rewrite inject_Z_mult, <- pow2_Z by lia.
    replace (- (k - 52))%Z with (52 - k)%Z by lia. reflexivity.
Qed.

Lemma V_Z z : (Z.abs z < 2 ^ 53)%Z -> V (inject_Z z) == inject_Z z.
Proof.
  intros Hz. destruct (Z.lt_trichotomy z 0) as [H|[H|H]].
  - assert (Hq : inject_Z z < 0) by (change 0 with (inject_Z 0); rewrite <- Zlt_Qlt; lia).
    rewrite (V_neg Hq).
    rewrite (@rndv_comp _ (inject_Z (- z))).
    + rewrite rndv_Z by lia. rewrite inject_Z_opp. ring.
    + rewrite inject_Z_opp. reflexivity.
    + lra.
  - subst z. reflexivity.
  - assert (Hq : 0 < inject_Z z) by (change 0 with (inject_Z 0); rewrite <- Zlt_Qlt; lia).
    rewrite (V_pos Hq). apply rndv_Z. lia.
Qed.

(** *** [round64] computes [V] unless it overflows *)

Lemma val_finite s m e :
  val (S754_finite s m e) == sgn s * (inject_Z (Z.pos m) * pow2 e).
Proof.
  destruct s; cbn [val sgn]; [|ring].
  change (Z.neg m) with (- Z.pos m)%Z. rewrite inject_Z_opp. ring.
Qed.

Lemma mk_number_val s m e :
  (0 <= m)%Z -> inject_Z m * pow2 e < pow2 emax ->
  fin (mk_number s m e) /\
  val (mk_number s m e) == sgn s * (inject_Z m * pow2 e).
Proof.
  intros Hm Hlt. destruct m as [|p|p]; [| |lia].
  - cbn. split; [exact I|]. ring.
  - unfold mk_number.
    destruct (Z.leb_spec emax (Z.log2 (Z.pos p) + e)) as [Ho|Ho].
    + exfalso. destruct (Z.log2_spec (Z.pos p) eq_refl) as [H1 _].
      apply (Qlt_irrefl (pow2 emax)).
      eapply Qle_lt_trans; [|exact Hlt].
      apply Qle_trans with (y := pow2 (Z.log2 (Z.pos p)) * pow2 e).
      * rewrite <- pow2_add. apply pow2_le, Ho.
      * apply scale_le. rewrite pow2_Z by apply Z.log2_nonneg.
        rewrite <- Zle_Qle. exact H1.
    + destruct (Z.eqb_spec (Z.pos p) (2 ^ 53)) as [E|N].
      * split; [exact I|]. rewrite val_finite, E.
        change (inject_Z (Z.pos (2 ^ 52))) with (pow2 52).
        change (inject_Z (2 ^ 53)) with (pow2 53).
        rewrite <- !pow2_add. replace (52 + (e + 1))%Z with (53 + e)%Z by lia.
        reflexivity.
      * split; [exact I|]. apply val_finite.
Qed.

Lemma round64_val q :
  - pow2 emax < V q -> V q < pow2 emax ->
  fin (round64 q) /\ val (round64 q) == V q.
Proof.
  intros Hlo Hhi. unfold round64.
  destruct (Q_dec q 0) as [[Hq|Hq]|Hq].
  - rewrite (V_neg Hq) in Hlo. pose proof Hq as Hc. rewrite Qlt_alt in Hc.
    rewrite Hc, (V_neg Hq).
    destruct (@mk_number_val true (mant (- q)) (fexp (- q))) as [Hf Hv].
    + apply mant_nonneg. lra.
    + fold (rndv (- q)). lra.
    + split; [exact Hf|]. rewrite Hv. unfold sgn. fold (rndv (- q)). ring.
  - rewrite (V_pos Hq) in Hhi. pose proof Hq as Hc. rewrite Qgt_alt in Hc.
    rewrite Hc, (V_pos Hq).
    destruct (@mk_number_val false (mant q) (fexp q)) as [Hf Hv].
    + apply mant_nonneg, Hq.
    + exact Hhi.
    + split; [exact Hf|]. rewrite Hv. unfold sgn. fold (rndv q). ring.
  - pose proof Hq as Hc. rewrite Qeq_alt in Hc. rewrite Hc, (V_zero Hq).
    split; [exact I | reflexivity].
Qed.

Lemma round64_not_nan q : round64 q <> S754_nan.
Proof.
  unfold round64, mk_number.
  repeat match goal with
         | |- context [match ?x with _ => _ end] => destruct x
         end; discriminate.
Qed.

Lemma mk_number_cases s m e :
  (0 <= m)%Z ->
  mk_number s m e = S754_infinity s \/
  (fin (mk_number s m e) /\
   val (mk_number s m e) == sgn s * (inject_Z m * pow2 e)).
Proof.
  intros Hm.
  destruct (Qlt_le_dec (inject_Z m * pow2 e) (pow2 emax)) as [H|H].
  - right. apply mk_number_val; assumption.
  - destruct m as [|p|p]; [| |lia].
    + exfalso. pose proof (pow2_pos emax).
      assert (Z0 : inject_Z 0 * pow2 e == 0) by ring. rewrite Z0 in H. lra.
    + unfold mk_number.
      destruct (Z.leb_spec emax (Z.log2 (Z.pos p) + e)) as [Ho|Ho];
        [left; reflexivity|].
      exfalso. destruct (Z.log2_spec (Z.pos p) eq_refl) as [_ H2].
      apply (Qlt_irrefl (pow2 emax)).
      eapply Qle_lt_trans; [exact H|].
      apply Qlt_le_trans with (y := pow2 (Z.log2 (Z.pos p) + 1) * pow2 e).
      * apply scale_lt.
        rewrite pow2_Z by (pose proof (Z.log2_nonneg (Z.pos p)); lia).
        rewrite <- Zlt_Qlt. replace (Z.log2 (Z.pos p) + 1)%Z
          with (Z.succ (Z.log2 (Z.pos p))) by lia. exact H2.
      * rewrite <- pow2_add. apply pow2_le. lia.
Qed.

(** A number [round64] returns is an infinity of the sign of the rational,
    or it is finite and its value is [V]. *)
Lemma round64_cases q :
  (0 < q /\ round64 q = Infinity) \/ (q < 0 /\ round64 q = NegInfinity) \/
  (fin (round64 q) /\ val (round64 q) == V q).
Proof.
  unfold round64.
  destruct (Q_dec q 0) as [[Hq|Hq]|Hq].
  - pose proof Hq as Hc. rewrite Qlt_alt in Hc. rewrite Hc, (V_neg Hq).
    destruct (@mk_number_cases true (mant (- q)) (fexp (- q))) as [H|[Hf Hv]].
    + apply mant_nonneg. lra.
    + right. left. split; assumption.
    + right. right. split; [exact Hf|]. rewrite Hv. unfold sgn.
      fold (rndv (- q)). ring.
  - pose proof Hq as Hc. rewrite Qgt_alt in Hc. rewrite Hc, (V_pos Hq).
    destruct (@mk_number_cases false (mant q) (fexp q)) as [H|[Hf Hv]].
    + apply mant_nonneg, Hq.
    + left. split; assumption.
    + right. right. split; [exact Hf|]. rewrite Hv. unfold sgn.
      fold (rndv q). ring.
  - pose proof Hq as Hc. rewrite Qeq_alt in Hc. rewrite Hc, (V_zero Hq).
    right. right. split; [exact I | reflexivity].
Qed.

(** *** Numbers within [2^n] in absolute value *)

Lemma V_bound n q :
  (-1022 <= n)%Z -> - pow2 n <= q -> q <= pow2 n ->
  - pow2 n <= V q /\ V q <= pow2 n.
Proof.
  intros Hn H1 H2. split.
  - apply Qle_trans with (y := V (- pow2 n)); [|apply V_mono, H1].
    rewrite V_opp, (V_pow2 Hn). apply Qle_refl.
  - apply Qle_trans with (y := V (pow2 n)); [apply V_mono, H2|].
    rewrite (V_pow2 Hn). apply Qle_refl.
Qed.

Lemma round64_bnd n q :
  (-1022 <= n < emax)%Z -> - pow2 n <= q -> q <= pow2 n ->
  bnd n (round64 q) /\ val (round64 q) == V q.
Proof.
  intros Hn H1 H2.
  destruct (@V_bound n q) as [B1 B2]; [lia | assumption | assumption |].
  assert (Hp : pow2 n < pow2 emax) by (apply pow2_lt; lia).
  destruct (@round64_val q) as [Hf Hv]; [lra | lra |].
  split; [|exact Hv]. split; [exact Hf|]. rewrite Hv. split; assumption.
Qed.

Lemma bnd_weaken n m x : (n <= m)%Z -> bnd n x -> bnd m x.
Proof.
  intros H [Hf [H1 H2]]. pose proof (pow2_le H).
  split; [exact Hf|]. split; lra.
Qed.

(** *** The operations on finite numbers *)

Lemma val_zero_of_fin x : fin x -> forall s, x = S754_zero s -> val x == 0.
Proof. intros _ s ->. reflexivity. Qed.

Lemma sub_fin x y :
  fin x -> fin y ->
  (exists s, sub x y = S754_zero s /\ val x - val y == 0) \/
  sub x y = round64 (val x - val y).
Proof.
  destruct x, y; cbn [fin]; try contradiction; intros _ _;
    try (right; reflexivity).
  left. eexists. split; [reflexivity|]. cbn. ring.
Qed.

Lemma mul_fin x y :
  fin x -> fin y ->
  (exists s, mul x y = S754_zero s /\ val x * val y == 0) \/
  mul x y = round64 (val x * val y).
Proof.
  destruct x, y; cbn [fin]; try contradiction; intros _ _;
    try (right; reflexivity);
    left; eexists; (split; [reflexivity|]); cbn [val]; ring.
Qed.

Lemma div_fin x s m e :
  fin x ->
  (exists s', div x (S754_finite s m e) = S754_zero s'
              /\ val x / val (S754_finite s m e) == 0) \/
  div x (S754_finite s m e) = round64 (val x / val (S754_finite s m e)).
Proof.
  destruct x; cbn [fin]; try contradiction; intros _;
    try (right; reflexivity).
  left. eexists. split; [reflexivity|]. cbn [val]. unfold Qdiv. ring.
Qed.

Lemma bnd_zero n s : bnd n (S754_zero s).
Proof.
  pose proof (pow2_pos n). split; [exact I|]. cbn [val]. split; lra.
Qed.

Lemma sub_bnd n x y :
  (-1022 <= n < emax)%Z -> fin x -> fin y ->
  - pow2 n <= val x - val y -> val x - val y <= pow2 n ->
  bnd n (sub x y) /\ val (sub x y) == V (val x - val y).
Proof.
  intros Hn Hx Hy H1 H2.
  destruct (@sub_fin x y Hx Hy) as [[s [E Z0]]|E]; rewrite E.
  - split; [apply bnd_zero|]. rewrite (V_zero Z0). reflexivity.
  - apply round64_bnd; assumption.
Qed.

Lemma mul_bnd n x y :
  (-1022 <= n < emax)%Z -> fin x -> fin y ->
  - pow2 n <= val x * val y -> val x * val y <= pow2 n ->
  bnd n (mul x y) /\ val (mul x y) == V (val x * val y).
Proof.
  intros Hn Hx Hy H1 H2.
  destruct (@mul_fin x y Hx Hy) as [[s [E Z0]]|E]; rewrite E.
  - split; [apply bnd_zero|]. rewrite (V_zero Z0). reflexivity.
  - apply round64_bnd; assumption.
Qed.

Lemma div_bnd n x y :
  (-1022 <= n < emax)%Z -> fin x -> fin y -> ~ val y == 0 ->
  - pow2 n <= val x / val y -> val x / val y <= pow2 n ->
  bnd n (div x y) /\ val (div x y) == V (val x / val y).
Proof.
  intros Hn Hx Hy Hy0 H1 H2.
  destruct y as [s| | |s m e]; cbn [fin] in Hy; try contradiction.
  - exfalso. apply Hy0. reflexivity.
  - destruct (@div_fin x s m e Hx) as [[s' [E Z0]]|E]; rewrite E.
    + split; [apply bnd_zero|]. rewrite (V_zero Z0). reflexivity.
    + apply round64_bnd; assumption.
Qed.

Lemma of_Z_exact z :
  (Z.abs z < 2 ^ 53)%Z -> fin (of_Z z) /\ val (of_Z z) == inject_Z z.
Proof.
  intros Hz. unfold of_Z.
  assert (Hp : pow2 53 < pow2 emax) by (apply pow2_lt; unfold emax; lia).
  assert (Hb : - pow2 53 < inject_Z z /\ inject_Z z < pow2 53).
  { change (pow2 53) with (inject_Z (2 ^ 53)). rewrite <- inject_Z_opp.
    rewrite <- !Zlt_Qlt. lia. }
  destruct (@round64_val (inject_Z z)) as [Hf Hv];
    [rewrite (@V_Z z Hz); lra | rewrite (@V_Z z Hz); lra |].
  split; [exact Hf|]. rewrite Hv. apply V_Z, Hz.
Qed.

Lemma le_fin x y : fin x -> fin y -> (le x y = true <-> val x <= val y).
Proof.
  destruct x, y; cbn [fin]; try contradiction; intros _ _;
    unfold le; apply Qle_bool_iff.
Qed.

Lemma lt_fin x y : fin x -> fin y -> (lt x y = true <-> val x < val y).
Proof.
  assert (G : forall a b, negb (Qle_bool b a) = true <-> a < b).
  { intros a b. rewrite negb_true_iff. split; intros H.
    - apply Qnot_le_lt. intros C. apply Qle_bool_iff in C. congruence.
    - destruct (Qle_bool b a) eqn:E; [|reflexivity].
      apply Qle_bool_iff in E. lra. }
  destruct x, y; cbn [fin]; try contradiction; intros _ _; unfold lt; apply G.
Qed.

Lemma Math_abs_fin x : fin x -> fin (Math_abs x) /\ val (Math_abs x) == Qabs (val x).
Proof.
  destruct x as [s| | |s m e]; cbn [fin]; try contradiction; intros _.
  - split; [exact I | reflexivity].
  - split; [exact I|]. cbn [Math_abs]. rewrite !val_finite.
    assert (P : 0 <= inject_Z (Z.pos m) * pow2 e).
    { apply Qmult_le_0_compat; [|apply Qlt_le_weak, pow2_pos].
      change 0 with (inject_Z 0). rewrite <- Zle_Qle. lia. }
    destruct s; unfold sgn.
    + rewrite <- (Qabs_opp (- (1) * _)). rewrite Qabs_pos; lra.
    + rewrite Qabs_pos; lra.
Qed.

Lemma Math_round_fin x :
  fin x ->
  (exists s, Math_round x = S754_zero s /\ Qfloor (val x + (1 # 2)) = 0%Z) \/
  Math_round x = of_Z (Qfloor (val x + (1 # 2))).
Proof.
  destruct x as [s| | |s m e]; cbn [fin]; try contradiction; intros _.
  - left. exists s. split; reflexivity.
  - unfold Math_round.
    destruct (Z.eqb_spec (Qfloor (val (S754_finite s m e) + (1 # 2))) 0) as [E|N].
    + left. exists s. split; [reflexivity | exact E].
    + right. reflexivity.
Qed.

(** *** The operations agree with the Standard Library's on these inputs *)

Example sub_agrees :
  sub (of_Z 1704105000000) (of_Z 1704103200000)
  = SFsub 53 1024 (of_Z 1704105000000) (of_Z 1704103200000) /\
  sub (of_Z 8640000000000000) (of_Z (-8639999999999999))
  = SFsub 53 1024 (of_Z 8640000000000000) (of_Z (-8639999999999999)).
Proof. vm_compute. split; reflexivity. Qed.

Example div_agrees :
  div (of_Z 1) (of_Z 3) = SFdiv 53 1024 (of_Z 1) (of_Z 3) /\
  div (of_Z 900000) (of_Z 3600000)
  = SFdiv 53 1024 (of_Z 900000) (of_Z 3600000) /\
  div (of_Z (-7)) (of_Z 60000) = SFdiv 53 1024 (of_Z (-7)) (of_Z 60000).
Proof. vm_compute. repeat split; reflexivity. Qed.

Example mul_agrees :
  mul (of_Z 600000) (div (of_Z 1) (of_Z 3))
  = SFmul 53 1024 (of_Z 600000) (div (of_Z 1) (of_Z 3)) /\
  mul (of_Z 1000) (of_Z 60) = SFmul 53 1024 (of_Z 1000) (of_Z 60).
Proof. vm_compute. split; reflexivity. Qed.

Example le_agrees :
  le (of_Z 2) (div (of_Z 7) (of_Z 3)) = SFleb (of_Z 2) (div (of_Z 7) (of_Z 3)) /\
  lt (div (of_Z 7) (of_Z 3)) (of_Z 2) = SFltb (div (of_Z 7) (of_Z 3)) (of_Z 2).
Proof. vm_compute. split; reflexivity. Qed.

Example Math_round_halves :
  Math_round (div (of_Z 5) (of_Z 2)) = of_Z 3 /\
  Math_round (div (of_Z (-5)) (of_Z 2)) = of_Z (-2) /\
  Math_round (div (of_Z (-1)) (of_Z 2)) = S754_zero true.
Proof. vm_compute. repeat split; reflexivity. Qed.

End NumberFacts.

(** ** Time values *)

Module DateFacts.

Import Number NumberFacts.

Lemma TimeClip_valid t z : TimeClip t = Some z -> validTime z.
Proof.
  destruct t as [t|]; cbn; [|discriminate].
  destruct (Z.leb_spec (Z.abs t) maxTime); [|discriminate].
  intros [= <-]. assumption.
Qed.

Lemma validTime_exact z : validTime z -> (Z.abs z < 2 ^ 53)%Z.
Proof. unfold validTime, maxTime. intros H. change (2 ^ 53)%Z with 9007199254740992%Z. lia. Qed.

Lemma of_time_fin z : validTime z -> fin (of_Z z).
Proof. intros H. apply of_Z_exact, validTime_exact, H. Qed.

Lemma of_time_val z : validTime z -> (val (of_Z z) == inject_Z z)%Q.
Proof. intros H. apply of_Z_exact, validTime_exact, H. Qed.

(** On time values, the comparison of numbers is the order of instants. *)
Lemma le_time a b :
  validTime a -> validTime b -> (le (of_Z a) (of_Z b) = true <-> (a <= b)%Z).
Proof.
  intros Ha Hb.
  rewrite le_fin by (apply of_time_fin; assumption).
  rewrite (of_time_val Ha), (of_time_val Hb), <- Zle_Qle. tauto.
Qed.

Lemma le_nan_l x : le NaN x = false.
Proof. reflexivity. Qed.

Lemma le_nan_r x : le x NaN = false.
Proof. destruct x as [|[]| |]; reflexivity. Qed.

End DateFacts.

(** ** The component *)

Section BusCardFacts.

Import Number NumberFacts DateFacts.

Variable Date_parse : string -> option Z.
Variable placeBet : BetRequest -> Store -> Store.

Lemma new_Date_valid v t : new_Date Date_parse v = Some t -> validTime t.
Proof. destruct v; cbn; [apply TimeClip_valid | discriminate]. Qed.

Lemma departureTime_effective bus :
  departureTime bus = Spec.effectiveDeparture bus.
Proof.
  unfold departureTime, Spec.effectiveDeparture, or_else, truthy.
  destruct (expectedDeparture bus) as [s|]; [|reflexivity].
  destruct (s =? "")%string; reflexivity.
Qed.

Lemma isActiveBus_run bus w :
  isActiveBus Date_parse bus w =
  (le (getTime (new_Date Date_parse (departureTime bus))) (of_Z (clock w))
   && le (of_Z (clock w)) (getTime (new_Date Date_parse (Some (scheduledArrival bus)))),
   w).
Proof. reflexivity. Qed.

(** C1.  [isActiveBus] answers true exactly when the clock lies between the
    effective departure and the scheduled arrival, both instants included;
    in particular it answers true at either end of a window that is not
    empty. *)
Theorem isActiveBus_window bus w :
  validTime (clock w) ->
  (eval (isActiveBus Date_parse bus) w = true <->
   exists dep arr,
     new_Date Date_parse (Spec.effectiveDeparture bus) = Some dep /\
     new_Date Date_parse (Some (scheduledArrival bus)) = Some arr /\
     (dep <= clock w <= arr)%Z)
  /\ (forall dep arr,
        new_Date Date_parse (Spec.effectiveDeparture bus) = Some dep ->
        new_Date Date_parse (Some (scheduledArrival bus)) = Some arr ->
        (dep <= arr)%Z ->
        (clock w = dep \/ clock w = arr) ->
        eval (isActiveBus Date_parse bus) w = true).
Proof.
  intros Hnow.
  assert (Iff : eval (isActiveBus Date_parse bus) w = true <->
    exists dep arr,
      new_Date Date_parse (Spec.effectiveDeparture bus) = Some dep /\
      new_Date Date_parse (Some (scheduledArrival bus)) = Some arr /\
      (dep <= clock w <= arr)%Z).
  { unfold eval. rewrite isActiveBus_run. cbn [fst].
    rewrite departureTime_effective, andb_true_iff.
    destruct (new_Date Date_parse (Spec.effectiveDeparture bus)) as [dep|] eqn:Ed.
    - destruct (new_Date Date_parse (Some (scheduledArrival bus))) as [arr|] eqn:Ea.
      + pose proof (new_Date_valid _ Ed) as Vd.
        pose proof (new_Date_valid _ Ea) as Va.
        cbn [getTime]. rewrite !le_time by assumption. split.
        * intros H. exists dep, arr. auto.
        * intros (d & a & [= <-] & [= <-] & H). exact H.
      + cbn [getTime]. rewrite le_nan_r. split.
        * intros [_ H]. discriminate.
        * intros (d & a & _ & H & _). discriminate.
    - cbn [getTime]. rewrite le_nan_l. split.
      + intros [H _]. discriminate.
      + intros (d & a & H & _). discriminate. }
  split; [exact Iff|].
  intros dep arr Ed Ea Hle Hat. apply Iff. exists dep, arr.
  repeat split; try assumption; lia.
Qed.

Lemma getCurrentDelay_falsy bus w :
  truthy (expectedDeparture bus) = false \/
  truthy (scheduledDeparture bus) = false ->
  getCurrentDelay Date_parse bus w = (None, w).
Proof.
  unfold getCurrentDelay.
  intros [H|H]; rewrite H; cbn [negb orb]; [reflexivity|].
  rewrite orb_true_r. reflexivity.
Qed.

(** C4.  Without an expected or without a scheduled departure,
    [getCurrentDelay] returns null, as an ordinary result, and leaves the
    world as it is. *)
Theorem getCurrentDelay_missing bus w :
  expectedDeparture bus = None \/ scheduledDeparture bus = None ->
  getCurrentDelay Date_parse bus w = (None, w).
Proof.
  intros [H|H]; apply getCurrentDelay_falsy; rewrite H; auto.
Qed.

Lemma getCurrentDelay_truthy bus w :
  truthy (expectedDeparture bus) = true ->
  truthy (scheduledDeparture bus) = true ->
  getCurrentDelay Date_parse bus w =
  (Some (Math_round
           (div (mul (sub (getTime (new_Date Date_parse (expectedDeparture bus)))
                          (getTime (new_Date Date_parse (scheduledDeparture bus))))
                     (div (sub (of_Z (clock w))
                               (getTime (new_Date Date_parse (scheduledDeparture bus))))
                          (sub (getTime (new_Date Date_parse (Some (scheduledArrival bus))))
                               (getTime (new_Date Date_parse (scheduledDeparture bus))))))
                (mul (of_Z 1000) (of_Z 60)))), w).
Proof.
  intros He Hs. unfold getCurrentDelay. rewrite He, Hs. reflexivity.
Qed.

Lemma find_none_iff {A} (f : A -> bool) l :
  find f l = None <-> forall x, In x l -> f x = false.
Proof.
  split; [apply find_none|].
  intros H. destruct (find f l) as [x|] eqn:E; [|reflexivity].
  apply find_some in E. destruct E as [Hin Hx].
  rewrite (H x Hin) in Hx. discriminate.
Qed.

Lemma render_run bus betAmount w :
  render Date_parse bus betAmount w =
  (let existing :=
     find (fun b => (busId b =? id bus)%string && negb (resolved b))
          (bets (store w)) in
   {| r_bus := bus; r_betAmount := betAmount;
      existingBet := existing;
      canPlaceBet :=
        eval (isActiveBus Date_parse bus) w
        && negb (match existing with Some _ => true | None => false end)
        && ge (balance (store w)) betAmount |}, w).
Proof. reflexivity. Qed.

(** No bet is found exactly when every bet on the bus is resolved. *)
Lemma existingBet_none bus (l : list Bet) :
  find (fun b => (busId b =? id bus)%string && negb (resolved b)) l = None <->
  forall b, In b l -> busId b = id bus -> resolved b = true.
Proof.
  rewrite find_none_iff. split; intros H b Hin.
  - intros Hid. specialize (H b Hin). cbn in H.
    apply String.eqb_eq in Hid. rewrite Hid in H.
    destruct (resolved b); [reflexivity | discriminate].
  - destruct (String.eqb_spec (busId b) (id bus)) as [Hid|]; [|reflexivity].
    rewrite (H b Hin Hid). reflexivity.
Qed.

(** C6.  A bet can be placed exactly when the bus is active, the store holds
    no unresolved bet on this bus, and the balance is at least the stake. *)
Theorem canPlaceBet_iff bus betAmount w :
  canPlaceBet (eval (render Date_parse bus betAmount) w) = true <->
  eval (isActiveBus Date_parse bus) w = true /\
  (forall b, In b (bets (store w)) -> busId b = id bus -> resolved b = true) /\
  ge (balance (store w)) betAmount = true.
Proof.
  unfold eval at 1. rewrite render_run. cbn [fst canPlaceBet].
  rewrite !andb_true_iff, <- existingBet_none.
  destruct (find _ (bets (store w))); cbn [negb]; split.
  - intros [[_ H] _]. discriminate.
  - intros (_ & H & _). discriminate.
  - tauto.
  - tauto.
Qed.

Lemma getCurrentDelay_world bus w :
  exec (getCurrentDelay Date_parse bus) w = w.
Proof.
  unfold exec.
  destruct (truthy (expectedDeparture bus)) eqn:He.
  - destruct (truthy (scheduledDeparture bus)) eqn:Hs.
    + rewrite getCurrentDelay_truthy by assumption. reflexivity.
    + rewrite getCurrentDelay_falsy by auto. reflexivity.
  - rewrite getCurrentDelay_falsy by auto. reflexivity.
Qed.

(** C7.  [isActiveBus] and [getCurrentDelay] depend on the world through the
    clock only, and leave the world as they found it: in two worlds that
    show the same instant they return the same results. *)
Theorem status_deterministic bus w1 w2 :
  clock w1 = clock w2 ->
  eval (isActiveBus Date_parse bus) w1 = eval (isActiveBus Date_parse bus) w2 /\
  eval (getCurrentDelay Date_parse bus) w1
  = eval (getCurrentDelay Date_parse bus) w2 /\
  exec (isActiveBus Date_parse bus) w1 = w1 /\
  exec (getCurrentDelay Date_parse bus) w1 = w1.
Proof.
  intros Hc. unfold eval, exec. rewrite !isActiveBus_run, Hc. cbn [fst snd].
  split; [reflexivity|].
  destruct (truthy (expectedDeparture bus)) eqn:He.
  - destruct (truthy (scheduledDeparture bus)) eqn:Hs.
    + rewrite !getCurrentDelay_truthy, Hc by assumption. auto.
    + rewrite !getCurrentDelay_falsy by auto. auto.
  - rewrite !getCurrentDelay_falsy by auto. auto.
Qed.

(** C8.  When the rendering found the bet not placeable (the bus is not
    active, or an unresolved bet on it exists, or the balance is below the
    stake) the handler leaves the world it runs in unchanged, whichever the
    prediction: the store is not called and nothing is notified. *)
Theorem handlePlaceBet_ineligible bus betAmount w :
  eval (isActiveBus Date_parse bus) w = false \/
  (exists b, In b (bets (store w)) /\ busId b = id bus /\ resolved b = false) \/
  ge (balance (store w)) betAmount = false ->
  canPlaceBet (eval (render Date_parse bus betAmount) w) = false /\
  forall prediction w',
    handlePlaceBet placeBet (eval (render Date_parse bus betAmount) w)
                   prediction w' = (tt, w').
Proof.
  intros H.
  assert (C : canPlaceBet (eval (render Date_parse bus betAmount) w) = false).
  { unfold eval at 1. rewrite render_run. cbn [fst canPlaceBet].
    destruct H as [H|[(b & Hin & Hid & Hr)|H]].
    - rewrite H. reflexivity.
    - destruct (find _ (bets (store w))) eqn:F.
      + cbn [negb]. rewrite andb_false_r. reflexivity.
      + exfalso. rewrite existingBet_none in F.
        rewrite (F b Hin Hid) in Hr. discriminate.
    - rewrite H. apply andb_false_r. }
  split; [exact C|]. intros prediction w'.
  unfold handlePlaceBet. rewrite C. reflexivity.
Qed.

(** C10.  An empty expected departure counts as none in both derivations:
    [getCurrentDelay] returns null, [isActiveBus] measures the window from
    the scheduled departure, and both answer as they do on the record that
    has no expected departure at all. *)
Theorem empty_expectedDeparture bus w :
  expectedDeparture bus = Some ""%string ->
  eval (getCurrentDelay Date_parse bus) w = None /\
  departureTime bus = scheduledDeparture bus /\
  forall bus',
    expectedDeparture bus' = None ->
    scheduledDeparture bus' = scheduledDeparture bus ->
    scheduledArrival bus' = scheduledArrival bus ->
    eval (getCurrentDelay Date_parse bus) w
    = eval (getCurrentDelay Date_parse bus') w /\
    eval (isActiveBus Date_parse bus) w = eval (isActiveBus Date_parse bus') w.
Proof.
  intros H.
  assert (D : departureTime bus = scheduledDeparture bus).
  { unfold departureTime, or_else. rewrite H. reflexivity. }
  assert (N : eval (getCurrentDelay Date_parse bus) w = None).
  { unfold eval. rewrite getCurrentDelay_falsy; [reflexivity|].
    left. rewrite H. reflexivity. }
  split; [exact N|]. split; [exact D|].
  intros bus' He Hs Ha. split.
  - rewrite N. unfold eval. rewrite getCurrentDelay_falsy; [reflexivity|].
    left. rewrite He. reflexivity.
  - unfold eval. rewrite !isActiveBus_run, D, Ha. cbn [fst].
    unfold departureTime at 1, or_else. rewrite He, Hs. reflexivity.
Qed.

Lemma present_truthy v : Spec.present v <-> truthy v = true.
Proof.
  unfold Spec.present, truthy. split.
  - intros (s & -> & Hs). apply negb_true_iff, String.eqb_neq, Hs.
  - destruct v as [s|]; [|discriminate]. intros H.
    exists s. split; [reflexivity|].
    apply String.eqb_neq, negb_true_iff, H.
Qed.

Lemma minute_ms : mul (of_Z 1000) (of_Z 60) = of_Z 60000.
Proof. vm_compute. reflexivity. Qed.

(** *** The degenerate schedule *)

Lemma sub_self x : sub x x = NaN \/ exists s, sub x x = S754_zero s.
Proof.
  destruct x as [s|s| |s m e].
  - right. eexists. reflexivity.
  - left. cbn. rewrite Bool.eqb_reflx. reflexivity.
  - left. reflexivity.
  - right. exists false. cbn [sub]. unfold round64.
    assert (E : (val (S754_finite s m e) - val (S754_finite s m e) ?= 0)%Q = Eq).
    { apply Qeq_alt. ring. }
    rewrite E. reflexivity.
Qed.

Lemma div_zero_nonfinite x s : nonfinite (div x (S754_zero s)).
Proof. destruct x; exact I. Qed.

Lemma div_nan_nonfinite x : nonfinite (div x NaN).
Proof. destruct x; exact I. Qed.

Lemma mul_nonfinite x y : nonfinite y -> nonfinite (mul x y).
Proof. destruct x, y; cbn; intros H; try exact I; contradiction. Qed.

Lemma div_nonfinite x s m e : nonfinite x -> nonfinite (div x (S754_finite s m e)).
Proof. destruct x; cbn; intros H; try exact I; contradiction. Qed.

Lemma Math_round_nonfinite x : nonfinite x -> nonfinite (Math_round x).
Proof. destruct x; cbn; intros H; try exact I; contradiction. Qed.

(** With a scheduled departure equal to the scheduled arrival the delay is
    never null: it is NaN or an infinity. *)
Lemma getCurrentDelay_degenerate bus w :
  truthy (expectedDeparture bus) = true ->
  truthy (scheduledDeparture bus) = true ->
  scheduledDeparture bus = Some (scheduledArrival bus) ->
  exists d, eval (getCurrentDelay Date_parse bus) w = Some d /\ nonfinite d.
Proof.
  intros He Hs Hd. unfold eval. rewrite getCurrentDelay_truthy by assumption.
  cbn [fst]. eexists. split; [reflexivity|].
  rewrite Hd.
  apply Math_round_nonfinite.
  assert (C : exists s m e, mul (of_Z 1000) (of_Z 60) = S754_finite s m e).
  { do 3 eexists. vm_compute. reflexivity. }
  destruct C as (s & m & e & ->).
  apply div_nonfinite, mul_nonfinite.
  destruct (sub_self (getTime (new_Date Date_parse (Some (scheduledArrival bus)))))
    as [E|[z E]]; rewrite E.
  - apply div_nan_nonfinite.
  - apply div_zero_nonfinite.
Qed.

End BusCardFacts.

(** ** The delay grows with the clock *)

Module DelayFacts.

Import Number NumberFacts DateFacts.
Local Open Scope Q_scope.

#[local] Instance V_proper : Proper (Qeq ==> Qeq) V.
Proof. intros q r E. apply V_comp, E. Qed.

Lemma Qdiv_le_mono a b t : 0 < t -> a <= b -> a / t <= b / t.
Proof.
  intros Ht H. unfold Qdiv. apply Qmult_le_compat_r; [exact H|].
  apply Qlt_le_weak, Qinv_lt_0_compat, Ht.
Qed.

Lemma Qinv_le_1 t : 1 <= t -> 0 < / t /\ / t <= 1.
Proof.
  intros Ht. assert (P : 0 < / t) by (apply Qinv_lt_0_compat; lra).
  split; [exact P|].
  assert (E : / t * t == 1) by (rewrite Qmult_comm; apply Qmult_inv_r; lra).
  rewrite <- E. rewrite <- (Qmult_1_r (/ t)) at 1.
  apply Qmult_le_l; assumption.
Qed.

Lemma Qdiv_bound B a t :
  1 <= t -> - B <= a -> a <= B -> - B <= a / t /\ a / t <= B.
Proof.
  intros Ht H1 H2. destruct (@Qinv_le_1 t Ht) as [U0 U1].
  unfold Qdiv. set (u := / t) in *. clearbody u. split; nra.
Qed.

Lemma Qmul_bound B C a b :
  0 <= a -> a <= B -> - C <= b -> b <= C -> - (B * C) <= a * b /\ a * b <= B * C.
Proof. intros. split; nra. Qed.

Lemma pow2_ge_1 n : (0 <= n)%Z -> 1 <= pow2 n.
Proof. intros H. change 1 with (pow2 0). apply pow2_le, H. Qed.

Lemma Math_round_bnd n x :
  (0 <= n)%Z -> (n + 1 < emax)%Z -> bnd n x ->
  bnd (n + 1) (Math_round x) /\
  val (Math_round x) == V (inject_Z (Qfloor (val x + (1 # 2)))).
Proof.
  intros Hn He [Hf [H1 H2]].
  destruct (@Math_round_fin x Hf) as [[s [E Z0]]|E]; rewrite E.
  - split; [apply bnd_zero|]. rewrite Z0. reflexivity.
  - pose proof (Qfloor_le (val x + (1 # 2))) as F1.
    pose proof (Qlt_floor (val x + (1 # 2))) as F2.
    rewrite inject_Z_plus in F2. change (inject_Z 1) with 1 in F2.
    pose proof (@pow2_ge_1 n Hn) as P1. pose proof (pow2_succ n) as P2.
    apply round64_bnd; [lia | lra | lra].
Qed.

Lemma time_diff_bound a b :
  validTime a -> validTime b ->
  - pow2 54 <= inject_Z a - inject_Z b /\ inject_Z a - inject_Z b <= pow2 54.
Proof.
  unfold validTime, maxTime. intros Ha Hb.
  change (pow2 54) with (inject_Z (2 ^ 54)).
  unfold Qminus. rewrite <- !inject_Z_opp, <- !inject_Z_plus, <- !Zle_Qle.
  change (2 ^ 54)%Z with 18014398509481984%Z. lia.
Qed.

(** The difference of two time values. *)
Lemma sub_time a b :
  validTime a -> validTime b ->
  bnd 54 (sub (of_Z a) (of_Z b)) /\
  val (sub (of_Z a) (of_Z b)) == V (inject_Z a - inject_Z b).
Proof.
  intros Ha Hb. destruct (@time_diff_bound a b Ha Hb) as [B1 B2].
  destruct (@sub_bnd 54 (of_Z a) (of_Z b)) as [Hb' Hv];
    try (apply of_time_fin; assumption);
    rewrite ?(@of_time_val a Ha), ?(@of_time_val b Hb); try assumption;
    [unfold emax; lia|].
  split; [exact Hb'|]. rewrite Hv, (@of_time_val a Ha), (@of_time_val b Hb).
  reflexivity.
Qed.

Section Delay.

(** Scheduled departure, scheduled arrival and expected departure. *)
Variables S A E : Z.
Hypothesis validS : validTime S.
Hypothesis validA : validTime A.
Hypothesis validE : validTime E.
Hypothesis journey : (S < A)%Z.
Hypothesis notEarly : (S <= E)%Z.

Lemma V_1 : V 1 == 1.
Proof. change 1 with (inject_Z 1). apply V_Z. reflexivity. Qed.

Lemma journey_value : 1 <= V (inject_Z A - inject_Z S).
Proof.
  rewrite <- V_1. apply V_mono.
  unfold Qminus. rewrite <- inject_Z_opp, <- inject_Z_plus.
  change 1 with (inject_Z 1). rewrite <- Zle_Qle. lia.
Qed.

Lemma notEarly_value : 0 <= V (inject_Z E - inject_Z S).
Proof.
  change 0 with (V 0) at 1. apply V_mono.
  unfold Qminus. rewrite <- inject_Z_opp, <- inject_Z_plus.
  change 0 with (inject_Z 0). rewrite <- Zle_Qle. lia.
Qed.

Lemma delayAt_value now :
  validTime now -> fin (delayAt S A E now) /\ val (delayAt S A E now) == delayValue S A E now.
Proof.
  intros Hn. unfold delayAt, delayValue.
  destruct (@sub_time A S validA validS) as [[FT [T1 T2]] VT].
  destruct (@sub_time E S validE validS) as [[FD [D1 D2]] VD].
  destruct (@sub_time now S Hn validS) as [[FL [L1 L2]] VL].
  pose proof journey_value as JT. rewrite <- VT in JT.
  pose proof notEarly_value as JD. rewrite <- VD in JD.
  set (T := sub (of_Z A) (of_Z S)) in *.
  set (D := sub (of_Z E) (of_Z S)) in *.
  set (L := sub (of_Z now) (of_Z S)) in *.
  destruct (@Qdiv_bound _ _ _ JT L1 L2) as [P1 P2].
  destruct (@div_bnd 54 L T) as [[FP [P3 P4]] VP];
    [unfold emax; lia | exact FL | exact FT | intros Z0; lra
    | exact P1 | exact P2 |].
  set (P := div L T) in *.
  destruct (@Qmul_bound _ _ _ _ JD D2 P3 P4) as [M1 M2].
  assert (E108 : pow2 108 == pow2 54 * pow2 54) by (rewrite <- pow2_add; reflexivity).
  destruct (@mul_bnd 108 D P) as [[FM [M3 M4]] VM];
    [unfold emax; lia | exact FD | exact FP | lra | lra |].
  set (M := mul D P) in *.
  destruct (@of_Z_exact 60000) as [FC VC]; [reflexivity|].
  assert (C1 : 1 <= val (of_Z 60000)) by (rewrite VC; discriminate).
  destruct (@Qdiv_bound _ _ _ C1 M3 M4) as [Q1 Q2].
  destruct (@div_bnd 108 M (of_Z 60000)) as [BQ VQ];
    [unfold emax; lia | exact FM | exact FC | intros Z0; lra
    | exact Q1 | exact Q2 |].
  destruct (@Math_round_bnd 108 (div M (of_Z 60000))) as [[FR _] VR];
    [lia | unfold emax; lia | exact BQ |].
  split; [exact FR|].
  rewrite VR, VQ, VC, VM, VP, VD, VL, VT. reflexivity.
Qed.

Lemma delayValue_mono n1 n2 : (n1 <= n2)%Z -> delayValue S A E n1 <= delayValue S A E n2.
Proof.
  intros H. unfold delayValue.
  apply V_mono. rewrite <- Zle_Qle. apply Qfloor_resp_le.
  apply Qplus_le_compat; [|apply Qle_refl].
  apply V_mono, Qdiv_le_mono; [reflexivity|].
  apply V_mono. rewrite !(Qmult_comm (V (inject_Z E - inject_Z S))).
  apply Qmult_le_compat_r; [|apply notEarly_value].
  apply V_mono, Qdiv_le_mono; [pose proof journey_value; lra|].
  apply V_mono. rewrite Zle_Qle in H. lra.
Qed.

Lemma delayAt_mono n1 n2 :
  validTime n1 -> validTime n2 -> (n1 <= n2)%Z ->
  le (delayAt S A E n1) (delayAt S A E n2) = true.
Proof.
  intros H1 H2 H.
  destruct (@delayAt_value n1 H1) as [F1 V1].
  destruct (@delayAt_value n2 H2) as [F2 V2].
  rewrite le_fin by assumption. rewrite V1, V2.
  apply delayValue_mono, H.
Qed.

End Delay.

End DelayFacts.

(** ** What [Math.round] returns, and how it is shown *)

Module RoundFacts.

Import Number NumberFacts DateFacts DelayFacts.
Local Open Scope Q_scope.

Lemma of_Z_1 : of_Z 1 = S754_finite false 4503599627370496 (-52).
Proof. vm_compute. reflexivity. Qed.

Lemma of_Z_0 : of_Z 0 = S754_zero false.
Proof. reflexivity. Qed.

(** [Math.round] returns NaN, an infinity, a zero, or a number of absolute
    value at least 1. *)
Lemma Math_round_result x :
  nonfinite (Math_round x) \/
  (exists s, Math_round x = S754_zero s) \/
  (fin (Math_round x) /\
   (1 <= val (Math_round x) \/ val (Math_round x) <= - (1))).
Proof.
  destruct x as [s|s| |s m e].
  - right. left. exists s. reflexivity.
  - left. exact I.
  - left. exact I.
  - unfold Math_round.
    set (n := Qfloor (val (S754_finite s m e) + (1 # 2))).
    destruct (Z.eqb_spec n 0) as [E|N].
    + right. left. exists s. reflexivity.
    + unfold of_Z.
      destruct (round64_cases (inject_Z n)) as [[_ H]|[[_ H]|[Hf Hv]]].
      * left. rewrite H. exact I.
      * left. rewrite H. exact I.
      * right. right. split; [exact Hf|]. rewrite Hv.
        destruct (Z_lt_le_dec n 0) as [L|G].
        -- right. apply Qle_trans with (y := V (inject_Z (-1))).
           ++ apply V_mono. rewrite <- Zle_Qle. lia.
           ++ rewrite V_Z by reflexivity. discriminate.
        -- left. apply Qle_trans with (y := V (inject_Z 1)).
           ++ rewrite V_Z by reflexivity. discriminate.
           ++ apply V_mono. rewrite <- Zle_Qle. lia.
Qed.

Lemma lt_zero_zero s s' : lt (S754_zero s) (S754_zero s') = false.
Proof. reflexivity. Qed.

(** A rounded number that is not zero is not below one in absolute value,
    and it is not both positive and negative. *)
Lemma Math_round_positive x :
  gt (Math_round x) (of_Z 0) = true ->
  lt (Math_abs (Math_round x)) (of_Z 1) = false.
Proof.
  rewrite of_Z_0. unfold gt.
  destruct (Math_round_result x) as [H|[[s H]|[Hf Hv]]].
  - destruct (Math_round x) as [|[]| |]; try contradiction; intros G;
      try reflexivity; discriminate.
  - rewrite H. discriminate.
  - intros G. rewrite lt_fin in G by (exact I || exact Hf). cbn [val] in G.
    destruct (@Math_abs_fin (Math_round x) Hf) as [Fa Va].
    destruct (@of_Z_exact 1) as [F1 V1]; [reflexivity|].
    apply not_true_is_false. intros C.
    rewrite lt_fin in C by assumption. rewrite Va, V1 in C.
    rewrite Qabs_pos in C by lra. change (inject_Z 1) with 1 in C. lra.
Qed.

Lemma Math_round_negative x :
  lt (Math_round x) (of_Z 0) = true ->
  lt (Math_abs (Math_round x)) (of_Z 1) = false /\
  gt (Math_round x) (of_Z 0) = false.
Proof.
  rewrite of_Z_0. unfold gt.
  destruct (Math_round_result x) as [H|[[s H]|[Hf Hv]]].
  - destruct (Math_round x) as [|[]| |]; try contradiction; intros G;
      try (split; reflexivity); discriminate.
  - rewrite H. discriminate.
  - intros G. rewrite lt_fin in G by (exact I || exact Hf). cbn [val] in G.
    destruct (@Math_abs_fin (Math_round x) Hf) as [Fa Va].
    destruct (@of_Z_exact 1) as [F1 V1]; [reflexivity|].
    split; apply not_true_is_false; intros C.
    + rewrite lt_fin in C by assumption. rewrite Va, V1 in C.
      rewrite Qabs_neg in C by lra. change (inject_Z 1) with 1 in C. lra.
    + rewrite lt_fin in C by (exact I || exact Hf). cbn [val] in C. lra.
Qed.

End RoundFacts.

(** ** The claims about the delay *)

Module DelayClaims.

Import Number NumberFacts DateFacts DelayFacts RoundFacts Examples.

Lemma getCurrentDelay_rounded Date_parse bus w d :
  eval (getCurrentDelay Date_parse bus) w = Some d ->
  exists x, d = Math_round x.
Proof.
  unfold eval.
  destruct (truthy (expectedDeparture bus)) eqn:He.
  - destruct (truthy (scheduledDeparture bus)) eqn:Hs.
    + rewrite getCurrentDelay_truthy by assumption. cbn [fst].
      match goal with |- Some (Math_round ?a) = _ -> _ => generalize a end.
      intros x H. exists x. congruence.
    + rewrite getCurrentDelay_falsy by auto. discriminate.
  - rewrite getCurrentDelay_falsy by auto. discriminate.
Qed.

Lemma renderDelay_run Date_parse bus w :
  eval (renderDelay Date_parse bus) w =
  match eval (getCurrentDelay Date_parse bus) w with
  | None => None
  | Some delay =>
      if lt (Math_abs delay) (of_Z 1)
      then Some {| variant := "outline"; children := [Txt "On Time"] |}
      else if gt delay (of_Z 0)
      then Some {| variant := "destructive";
                   children := [Num delay; Txt " mins behind"] |}
      else Some {| variant := "default";
                   children := [Num (Math_abs delay); Txt " mins ahead"] |}
  end.
Proof.
  pose proof (getCurrentDelay_world Date_parse bus w) as Hw.
  unfold eval, exec, renderDelay, bind in *.
  destruct (getCurrentDelay Date_parse bus w) as [[d|] w']; cbn [fst snd] in *;
    [|reflexivity].
  destruct (lt (Math_abs d) (of_Z 1)); [reflexivity|].
  destruct (gt d (of_Z 0)); reflexivity.
Qed.

(** C3.  On a schedule whose departure and arrival coincide the delay is not
    null: seen at 09:55 with an expected departure of 09:50 it is Infinity,
    shown as a delay behind schedule; seen at 10:00 it is NaN. *)
Theorem getCurrentDelay_degenerate_run :
  eval (getCurrentDelay parseISO degenerateBus)
       (worldAt "2024-01-01T09:55:00Z" emptyStore) = Some Infinity /\
  eval (renderDelay parseISO degenerateBus)
       (worldAt "2024-01-01T09:55:00Z" emptyStore)
  = Some {| variant := "destructive";
            children := [Num Infinity; Txt " mins behind"] |} /\
  eval (isActiveBus parseISO degenerateBus)
       (worldAt "2024-01-01T09:55:00Z" emptyStore) = true /\
  eval (getCurrentDelay parseISO degenerateBus)
       (worldAt "2024-01-01T10:00:00Z" emptyStore) = Some NaN.
Proof. vm_compute. repeat split; reflexivity. Qed.

(** C5.  What [renderDelay] shows for the delay [getCurrentDelay] returns:
    nothing for null, "On Time" below one minute in absolute value, the
    delay as minutes behind when it is positive, its absolute value as
    minutes ahead when it is negative; eight minutes early at the scheduled
    arrival is shown as 8 minutes ahead. *)
Theorem renderDelay_classification :
  (forall Date_parse bus w,
     (eval (getCurrentDelay Date_parse bus) w = None ->
      eval (renderDelay Date_parse bus) w = None) /\
     (forall d,
        eval (getCurrentDelay Date_parse bus) w = Some d ->
        (lt (Math_abs d) (of_Z 1) = true ->
         eval (renderDelay Date_parse bus) w
         = Some {| variant := "outline"; children := [Txt "On Time"] |}) /\
        (gt d (of_Z 0) = true ->
         eval (renderDelay Date_parse bus) w
         = Some {| variant := "destructive";
                   children := [Num d; Txt " mins behind"] |}) /\
        (lt d (of_Z 0) = true ->
         eval (renderDelay Date_parse bus) w
         = Some {| variant := "default";
                   children := [Num (Math_abs d); Txt " mins ahead"] |}))) /\
  eval (getCurrentDelay parseISO earlyBus)
       (worldAt "2024-01-01T11:00:00Z" emptyStore) = Some (of_Z (-8)) /\
  eval (renderDelay parseISO earlyBus)
       (worldAt "2024-01-01T11:00:00Z" emptyStore)
  = Some {| variant := "default";
            children := [Num (of_Z 8); Txt " mins ahead"] |}.
Proof.
  split; [|vm_compute; split; reflexivity].
  intros Date_parse bus w. split.
  - intros H. rewrite renderDelay_run, H. reflexivity.
  - intros d H. rewrite renderDelay_run, H.
    destruct (getCurrentDelay_rounded _ _ _ H) as [x ->].
    split; [|split].
    + intros ->. reflexivity.
    + intros G. rewrite (Math_round_positive _ G), G. reflexivity.
    + intros L. destruct (Math_round_negative _ L) as [-> ->]. reflexivity.
Qed.

(** C9.  On a journey that takes time, with an expected departure not
    before the scheduled one, the delay does not decrease as the clock
    advances. *)
Theorem getCurrentDelay_monotone Date_parse bus S A E w1 w2 :
  Spec.present (expectedDeparture bus) ->
  Spec.present (scheduledDeparture bus) ->
  new_Date Date_parse (scheduledDeparture bus) = Some S ->
  new_Date Date_parse (Some (scheduledArrival bus)) = Some A ->
  new_Date Date_parse (expectedDeparture bus) = Some E ->
  (S < A)%Z -> (S <= E)%Z ->
  validTime (clock w1) -> validTime (clock w2) ->
  (clock w1 <= clock w2)%Z ->
  exists d1 d2,
    eval (getCurrentDelay Date_parse bus) w1 = Some d1 /\
    eval (getCurrentDelay Date_parse bus) w2 = Some d2 /\
    le d1 d2 = true.
Proof.
  intros He Hs PS PA PE HSA HSE V1 V2 H12.
  apply present_truthy in He, Hs.
  exists (delayAt S A E (clock w1)), (delayAt S A E (clock w2)).
  unfold eval. rewrite !getCurrentDelay_truthy by assumption.
  rewrite PS, PA, PE, minute_ms. cbn [fst getTime].
  repeat split.
  apply delayAt_mono; try assumption.
  - apply (new_Date_valid _ _ PS).
  - apply (new_Date_valid _ _ PA).
  - apply (new_Date_valid _ _ PE).
Qed.

End DelayClaims.

(** ** The theorems at the inputs of the examples *)

Module Instances.

Import Number NumberFacts DateFacts Examples DelayClaims.
Local Open Scope string_scope.

(** The late bus is active at its expected departure, 10:10. *)
Lemma isActiveBus_window_witness :
  validTime (clock tenTen) /\ eval (isActiveBus parseISO lateBus) tenTen = true.
Proof.
  assert (H : validTime (clock tenTen)) by (vm_compute; discriminate).
  split; [exact H|].
  eapply (proj2 (@isActiveBus_window parseISO lateBus tenTen H)).
  - vm_compute. reflexivity.
  - vm_compute. reflexivity.
  - vm_compute. discriminate.
  - left. vm_compute. reflexivity.
Defined.

Lemma getCurrentDelay_missing_witness :
  getCurrentDelay parseISO unrevisedBus halfPast = (None, halfPast).
Proof. apply getCurrentDelay_missing. left. reflexivity. Defined.

Lemma renderDelay_classification_witness :
  lt (of_Z (-8)) (of_Z 0) = true /\
  eval (renderDelay parseISO earlyBus) eleven
  = Some {| variant := "default";
            children := [Num (Math_abs (of_Z (-8))); Txt " mins ahead"] |}.
Proof.
  assert (L : lt (of_Z (-8)) (of_Z 0) = true) by (vm_compute; reflexivity).
  split; [exact L|].
  apply (proj2 (proj1 renderDelay_classification parseISO earlyBus eleven)
               (of_Z (-8)));
    [vm_compute; reflexivity | exact L].
Defined.

Lemma canPlaceBet_iff_witness :
  canPlaceBet (eval (render parseISO lateBus (of_Z 1)) halfPast) = true.
Proof.
  apply (proj2 (canPlaceBet_iff parseISO lateBus (of_Z 1) halfPast)).
  split; [vm_compute; reflexivity|].
  split; [intros b []|vm_compute; reflexivity].
Defined.

Lemma status_deterministic_witness :
  eval (isActiveBus parseISO lateBus) halfPast
  = eval (isActiveBus parseISO lateBus) halfPastBetting /\
  eval (getCurrentDelay parseISO lateBus) halfPast
  = eval (getCurrentDelay parseISO lateBus) halfPastBetting /\
  exec (isActiveBus parseISO lateBus) halfPast = halfPast /\
  exec (getCurrentDelay parseISO lateBus) halfPast = halfPast.
Proof.
  apply (@status_deterministic parseISO lateBus halfPast halfPastBetting).
  reflexivity.
Defined.

Lemma handlePlaceBet_ineligible_witness :
  canPlaceBet (eval (render parseISO lateBus (of_Z 1)) halfPastBetting) = false /\
  forall prediction w',
    handlePlaceBet recordBet
      (eval (render parseISO lateBus (of_Z 1)) halfPastBetting)
      prediction w' = (tt, w').
Proof.
  apply (@handlePlaceBet_ineligible parseISO recordBet lateBus (of_Z 1)
           halfPastBetting).
  right. left. exists openBet. split; [left; reflexivity|].
  split; reflexivity.
Defined.

Lemma empty_expectedDeparture_witness :
  eval (getCurrentDelay parseISO blankBus) halfPast = None /\
  departureTime blankBus = scheduledDeparture blankBus.
Proof.
  destruct (@empty_expectedDeparture parseISO blankBus halfPast eq_refl)
    as (H1 & H2 & _).
  split; assumption.
Defined.

Lemma getCurrentDelay_monotone_witness :
  exists d1 d2,
    eval (getCurrentDelay parseISO lateBus) tenFifteen = Some d1 /\
    eval (getCurrentDelay parseISO lateBus) quarterTo = Some d2 /\
    le d1 d2 = true.
Proof.
  apply (@getCurrentDelay_monotone parseISO lateBus
           1704103200000 1704106800000 1704103800000 tenFifteen quarterTo).
  - eexists. split; [reflexivity | discriminate].
  - eexists. split; [reflexivity | discriminate].
  - vm_compute. reflexivity.
  - vm_compute. reflexivity.
  - vm_compute. reflexivity.
  - reflexivity.
  - discriminate.
  - vm_compute. discriminate.
  - vm_compute. discriminate.
  - vm_compute. discriminate.
Defined.

End Instances.

(** * Further properties *)

(** ** The delay on a schedule that takes time *)

Module JourneyFacts.

Import Number NumberFacts DateFacts DelayFacts RoundFacts.
Local Open Scope Q_scope.

#[local] Existing Instance V_proper.

Lemma Qdiv_bound_abs B a t :
  1 <= t \/ t <= - (1) -> - B <= a -> a <= B -> - B <= a / t /\ a / t <= B.
Proof.
  intros [Ht|Ht] H1 H2; [apply Qdiv_bound; assumption|].
  assert (E : a / t == (- a) / (- t)).
  { field. intros Z0. lra. }
  rewrite E. apply Qdiv_bound; lra.
Qed.

Lemma Qmul_bound_abs B C a b :
  - B <= a -> a <= B -> - C <= b -> b <= C ->
  - (B * C) <= a * b /\ a * b <= B * C.
Proof. intros. split; nra. Qed.

Lemma fin_val_zero x : fin x -> val x == 0 -> exists s, x = S754_zero s.
Proof.
  destruct x as [s| | |s m e]; cbn [fin]; try contradiction; intros _ H.
  - exists s. reflexivity.
  - exfalso. rewrite val_finite in H.
    assert (P : 0 < inject_Z (Z.pos m) * pow2 e).
    { apply Qmult_lt_0_compat; [|apply pow2_pos].
      change 0 with (inject_Z 0). rewrite <- Zlt_Qlt. lia. }
    destruct s; unfold sgn in H; lra.
Qed.

Lemma V_0 : V 0 == 0.
Proof. reflexivity. Qed.

Section Journey.

Variables S A E : Z.
Hypothesis validS : validTime S.
Hypothesis validA : validTime A.
Hypothesis validE : validTime E.
Hypothesis journey : S <> A.

Lemma journey_nonzero :
  1 <= V (inject_Z A - inject_Z S) \/ V (inject_Z A - inject_Z S) <= - (1).
Proof.
  destruct (Z_lt_le_dec S A) as [H|H].
  - left. rewrite <- V_1. apply V_mono.
    unfold Qminus. rewrite <- inject_Z_opp, <- inject_Z_plus.
    change 1 with (inject_Z 1). rewrite <- Zle_Qle. lia.
  - right. assert (N : - (1) == V (- (1))) by (rewrite V_opp, V_1; reflexivity).
    rewrite N. apply V_mono.
    unfold Qminus. rewrite <- inject_Z_opp, <- inject_Z_plus.
    change (- (1)) with (inject_Z (-1)). rewrite <- Zle_Qle. lia.
Qed.

(** Whatever the expected departure, the delay is a finite number. *)
Lemma delayAt_finite now :
  validTime now ->
  fin (delayAt S A E now) /\ val (delayAt S A E now) == delayValue S A E now.
Proof.
  intros Hn. unfold delayAt, delayValue.
  destruct (@sub_time A S validA validS) as [[FT [T1 T2]] VT].
  destruct (@sub_time E S validE validS) as [[FD [D1 D2]] VD].
  destruct (@sub_time now S Hn validS) as [[FL [L1 L2]] VL].
  pose proof journey_nonzero as JT. rewrite <- VT in JT.
  set (T := sub (of_Z A) (of_Z S)) in *.
  set (D := sub (of_Z E) (of_Z S)) in *.
  set (L := sub (of_Z now) (of_Z S)) in *.
  destruct (@Qdiv_bound_abs _ _ _ JT L1 L2) as [P1 P2].
  destruct (@div_bnd 54 L T) as [[FP [P3 P4]] VP];
    [unfold emax; lia | exact FL | exact FT | intros Z0; lra
    | exact P1 | exact P2 |].
  set (P := div L T) in *.
  destruct (@Qmul_bound_abs _ _ _ _ D1 D2 P3 P4) as [M1 M2].
  assert (E108 : pow2 108 == pow2 54 * pow2 54) by (rewrite <- pow2_add; reflexivity).
  destruct (@mul_bnd 108 D P) as [[FM [M3 M4]] VM];
    [unfold emax; lia | exact FD | exact FP | lra | lra |].
  set (M := mul D P) in *.
  destruct (@of_Z_exact 60000) as [FC VC]; [reflexivity|].
  assert (C1 : 1 <= val (of_Z 60000)) by (rewrite VC; discriminate).
  destruct (@Qdiv_bound _ _ _ C1 M3 M4) as [Q1 Q2].
  destruct (@div_bnd 108 M (of_Z 60000)) as [BQ VQ];
    [unfold emax; lia | exact FM | exact FC | intros Z0; lra
    | exact Q1 | exact Q2 |].
  destruct (@Math_round_bnd 108 (div M (of_Z 60000))) as [[FR _] VR];
    [lia | unfold emax; lia | exact BQ |].
  split; [exact FR|].
  rewrite VR, VQ, VC, VM, VP, VD, VL, VT. reflexivity.
Qed.

(** Nothing has elapsed at the scheduled departure. *)
Lemma delayValue_departure : delayValue S A E S == 0.
Proof.
  unfold delayValue.
  assert (Z1 : inject_Z S - inject_Z S == 0) by ring.
  rewrite Z1, V_0.
  assert (Z2 : 0 / V (inject_Z A - inject_Z S) == 0) by (unfold Qdiv; ring).
  rewrite Z2, V_0, Qmult_0_r, V_0.
  assert (Z3 : 0 / 60000 == 0) by reflexivity.
  rewrite Z3, V_0. reflexivity.
Qed.

(** A bus expected on time has no delay to interpolate. *)
Lemma delayValue_on_time now : E = S -> delayValue S A E now == 0.
Proof.
  intros HE. unfold delayValue. rewrite HE.
  assert (Z1 : inject_Z S - inject_Z S == 0) by ring.
  rewrite Z1, V_0, Qmult_0_l, V_0.
  assert (Z3 : 0 / 60000 == 0) by reflexivity.
  rewrite Z3, V_0. reflexivity.
Qed.

End Journey.

Section Forward.

Variables S A E : Z.
Hypothesis journey : (S < A)%Z.

Lemma journey_positive : 0 < V (inject_Z A - inject_Z S).
Proof.
  apply Qlt_le_trans with (y := V 1); [rewrite V_1; reflexivity|].
  apply V_mono. unfold Qminus. rewrite <- inject_Z_opp, <- inject_Z_plus.
  change 1 with (inject_Z 1). rewrite <- Zle_Qle. lia.
Qed.

(** With an expected departure not after the scheduled one the delay does
    not grow with the clock. *)
Lemma delayValue_anti n1 n2 :
  (E <= S)%Z -> (n1 <= n2)%Z -> delayValue S A E n2 <= delayValue S A E n1.
Proof.
  intros HE H. unfold delayValue.
  assert (D : V (inject_Z E - inject_Z S) <= 0).
  { rewrite <- V_0. apply V_mono.
    unfold Qminus. rewrite <- inject_Z_opp, <- inject_Z_plus.
    change 0 with (inject_Z 0). rewrite <- Zle_Qle. lia. }
  apply V_mono. rewrite <- Zle_Qle. apply Qfloor_resp_le.
  apply Qplus_le_compat; [|apply Qle_refl].
  apply V_mono, Qdiv_le_mono; [reflexivity|].
  apply V_mono.
  assert (Q : V (V (inject_Z n1 - inject_Z S) / V (inject_Z A - inject_Z S))
              <= V (V (inject_Z n2 - inject_Z S) / V (inject_Z A - inject_Z S))).
  { apply V_mono, Qdiv_le_mono; [apply journey_positive|].
    apply V_mono. rewrite Zle_Qle in H. lra. }
  nra.
Qed.

End Forward.

(** *** Rounding depends on the value only, and keeps scaled integers *)

Lemma flog2_comp q r : 0 < q -> q == r -> flog2 q = flog2 r.
Proof.
  intros Hq E. destruct (flog2_spec Hq) as [H1 H2].
  symmetry. apply flog2_unique; rewrite <- E; assumption.
Qed.

Lemma mk_comp q r : 0 < q -> q == r -> mant q = mant r /\ fexp q = fexp r.
Proof.
  intros Hq E.
  assert (F : fexp q = fexp r) by (unfold fexp; rewrite (flog2_comp Hq E); reflexivity).
  split; [|exact F]. unfold mant. rewrite F. apply rne_comp. rewrite E. reflexivity.
Qed.

Lemma round64_comp q r : q == r -> round64 q = round64 r.
Proof.
  intros E. unfold round64.
  assert (C : (q ?= 0) = (r ?= 0)) by (apply Qcompare_comp; [exact E | reflexivity]).
  rewrite <- C. destruct (q ?= 0) eqn:Cq; [reflexivity| |].
  - rewrite <- Qlt_alt in Cq.
    destruct (@mk_comp (- q) (- r)) as [-> ->]; [lra | rewrite E; reflexivity|].
    reflexivity.
  - rewrite <- Qgt_alt in Cq.
    destruct (@mk_comp q r) as [-> ->]; [lra | exact E|]. reflexivity.
Qed.

Lemma rndv_scaled z j :
  (0 < z < 2 ^ 53)%Z -> (0 <= j)%Z ->
  rndv (inject_Z z * pow2 j) == inject_Z z * pow2 j.
Proof.
  intros Hz Hj.
  assert (Hq : 0 < inject_Z z) by (change 0 with (inject_Z 0); rewrite <- Zlt_Qlt; lia).
  destruct (flog2_spec Hq) as [H1 H2].
  set (k := flog2 (inject_Z z)) in *.
  assert (Hk : (0 <= k <= 52)%Z).
  { split.
    - assert (0 < k + 1)%Z; [|lia]. apply pow2_lt_inv.
      eapply Qle_lt_trans; [|exact H2].
      change (pow2 0) with (inject_Z 1). rewrite <- Zle_Qle. lia.
    - assert (k < 53)%Z; [|lia]. apply pow2_lt_inv.
      eapply Qle_lt_trans; [exact H1|].
      change (pow2 53) with (inject_Z (2 ^ 53)). rewrite <- Zlt_Qlt. lia. }
  assert (Hl : flog2 (inject_Z z * pow2 j) = (k + j)%Z).
  { apply flog2_unique.
    - rewrite pow2_add. apply scale_le, H1.
    - replace (k + j + 1)%Z with (k + 1 + j)%Z by lia.
      rewrite pow2_add. apply scale_lt, H2. }
  assert (He : fexp (inject_Z z * pow2 j) = (k + j - 52)%Z)
    by (unfold fexp, emin; rewrite Hl; lia).
  unfold rndv, mant. rewrite He.
  rewrite (@rne_comp _ (inject_Z (z * 2 ^ (52 - k)))).
  - rewrite rne_Z, inject_Z_mult, <- pow2_Z by lia.
    rewrite <- Qmult_assoc, <- pow2_add.
    replace (52 - k + (k + j - 52))%Z with j by lia. reflexivity.
  - rewrite inject_Z_mult, <- pow2_Z by lia.
    rewrite <- Qmult_assoc, <- pow2_add.
    replace (j + - (k + j - 52))%Z with (52 - k)%Z by lia. reflexivity.
Qed.

Lemma V_scaled z j :
  (Z.abs z < 2 ^ 53)%Z -> (0 <= j)%Z ->
  V (inject_Z z * pow2 j) == inject_Z z * pow2 j.
Proof.
  intros Hz Hj. pose proof (pow2_pos j) as Pj.
  destruct (Z.lt_trichotomy z 0) as [H|[H|H]].
  - assert (Hq : inject_Z z < 0) by (change 0 with (inject_Z 0); rewrite <- Zlt_Qlt; lia).
    assert (Hn : inject_Z z * pow2 j < 0) by nra.
    rewrite (V_neg Hn).
    rewrite (@rndv_comp _ (inject_Z (- z) * pow2 j)).
    + rewrite rndv_scaled by lia. rewrite inject_Z_opp. ring.
    + rewrite inject_Z_opp. ring.
    + lra.
  - subst z. rewrite V_zero; [|ring]. ring.
  - assert (Hq : 0 < inject_Z z) by (change 0 with (inject_Z 0); rewrite <- Zlt_Qlt; lia).
    assert (Hp : 0 < inject_Z z * pow2 j) by nra.
    rewrite (V_pos Hp). apply rndv_scaled; lia.
Qed.

Lemma fin_nonzero x :
  fin x -> ~ val x == 0 -> exists s m e, x = S754_finite s m e.
Proof.
  destruct x as [s| | |s m e]; cbn [fin]; try contradiction; intros _ H.
  - exfalso. apply H. reflexivity.
  - exists s, m, e. reflexivity.
Qed.

Lemma sub_self_fin x : fin x -> sub x x = S754_zero false.
Proof.
  destruct x as [s| | |s m e]; cbn [fin]; try contradiction; intros _.
  - cbn. destruct s; reflexivity.
  - cbn [sub]. apply (@round64_comp _ 0). ring.
Qed.

Lemma minutes_ms : of_Z 60000 = S754_finite false 8246337208320000 (-37).
Proof. vm_compute. reflexivity. Qed.

(** *** The delay at the scheduled arrival *)

Section Arrival.

Variables S A E k : Z.
Hypothesis validS : validTime S.
Hypothesis validA : validTime A.
Hypothesis validE : validTime E.
Hypothesis journey : S <> A.
Hypothesis minutes : (E - S = 60000 * k)%Z.

Lemma proportion_arrival :
  div (sub (of_Z A) (of_Z S)) (sub (of_Z A) (of_Z S)) = of_Z 1.
Proof.
  destruct (@sub_time A S validA validS) as [[FT _] VT].
  pose proof (@journey_nonzero S A journey) as JT. rewrite <- VT in JT.
  assert (NZ : ~ val (sub (of_Z A) (of_Z S)) == 0).
  { generalize dependent (val (sub (of_Z A) (of_Z S))).
    intros t _ [H|H] Z0; lra. }
  destruct (@fin_nonzero (sub (of_Z A) (of_Z S)) FT NZ) as (s & m & e & ET).
  rewrite ET in *.
  cbn [div]. apply round64_comp. field. exact NZ.
Qed.

Lemma whole_minutes_exact :
  V (inject_Z (60000 * k)) == inject_Z (60000 * k).
Proof.
  assert (B : (Z.abs (1875 * k) < 2 ^ 53)%Z).
  { unfold validTime, maxTime in *.
    change (2 ^ 53)%Z with 9007199254740992%Z. lia. }
  assert (E32 : inject_Z (60000 * k) == inject_Z (1875 * k) * pow2 5).
  { change (pow2 5) with (inject_Z 32). rewrite <- inject_Z_mult.
    replace (1875 * k * 32)%Z with (60000 * k)%Z by lia. reflexivity. }
  rewrite E32. apply V_scaled; [exact B | lia].
Qed.

Lemma k_small : (Z.abs k < 2 ^ 53)%Z.
Proof.
  unfold validTime, maxTime in *.
  change (2 ^ 53)%Z with 9007199254740992%Z. lia.
Qed.

(** At the scheduled arrival the whole raw delay is reported: [k] minutes
    when it is [k] whole minutes. *)
Lemma delayAt_arrival : delayAt S A E A = of_Z k.
Proof.
  unfold delayAt. rewrite proportion_arrival.
  destruct (Z.eq_dec k 0) as [K0|K0].
  - assert (ES : E = S) by lia. rewrite ES, K0.
    rewrite sub_self_fin by (apply of_time_fin, validS).
    rewrite of_Z_1, minutes_ms. reflexivity.
  - assert (D : sub (of_Z E) (of_Z S) = of_Z (60000 * k)).
    { destruct (@sub_fin (of_Z E) (of_Z S)) as [[s [_ Z0]]| -> ];
        try (apply of_time_fin; assumption).
      - exfalso. rewrite (of_time_val validE), (of_time_val validS) in Z0.
        unfold Qminus in Z0. rewrite <- inject_Z_opp, <- inject_Z_plus in Z0.
        change 0 with (inject_Z 0) in Z0. apply (proj1 (inject_Z_injective _ _)) in Z0. lia.
      - apply round64_comp.
        rewrite (of_time_val validE), (of_time_val validS).
        unfold Qminus. rewrite <- inject_Z_opp, <- inject_Z_plus.
        replace (E + - S)%Z with (60000 * k)%Z by lia. reflexivity. }
    rewrite D.
    assert (Pm : pow2 emax > pow2 54) by (apply pow2_lt; unfold emax; lia).
    assert (Bm : - pow2 54 <= inject_Z (60000 * k) /\ inject_Z (60000 * k) <= pow2 54).
    { replace (60000 * k)%Z with (E - S)%Z by lia.
      unfold Z.sub. rewrite inject_Z_plus, inject_Z_opp.
      apply time_diff_bound; assumption. }
    destruct (@round64_val (inject_Z (60000 * k))) as [FM VM];
      [rewrite whole_minutes_exact; lra | rewrite whole_minutes_exact; lra|].
    rewrite whole_minutes_exact in VM. fold (of_Z (60000 * k)) in FM, VM.
    assert (NZ : ~ inject_Z (60000 * k) == 0).
    { intros Z0. change 0 with (inject_Z 0) in Z0. apply (proj1 (inject_Z_injective _ _)) in Z0. lia. }
    destruct (@fin_nonzero (of_Z (60000 * k)) FM) as (s & m & e & EM);
      [rewrite VM; exact NZ|].
    assert (M : mul (of_Z (60000 * k)) (of_Z 1) = of_Z (60000 * k)).
    { rewrite EM at 1. rewrite of_Z_1. cbn [mul].
      apply round64_comp. rewrite <- EM, VM. rewrite <- of_Z_1.
      destruct (@of_Z_exact 1) as [_ ->]; [reflexivity|]. ring. }
    rewrite M.
    assert (Q : div (of_Z (60000 * k)) (of_Z 60000) = of_Z k).
    { rewrite EM, minutes_ms. cbn [div].
      apply round64_comp. rewrite <- EM, VM, <- minutes_ms.
      destruct (@of_Z_exact 60000) as [_ ->]; [reflexivity|].
      rewrite inject_Z_mult. field. }
    rewrite Q.
    destruct (@of_Z_exact k k_small) as [FK VK].
    destruct (@fin_nonzero (of_Z k) FK) as (s' & m' & e' & EK).
    { rewrite VK. intros Z0. change 0 with (inject_Z 0) in Z0.
      apply (proj1 (inject_Z_injective _ _)) in Z0. lia. }
    assert (F : Qfloor (inject_Z k + (1 # 2)) = k).
    { pose proof (Qfloor_le (inject_Z k + (1 # 2))) as F1.
      pose proof (Qlt_floor (inject_Z k + (1 # 2))) as F2.
      set (n := Qfloor (inject_Z k + (1 # 2))) in *.
      assert (inject_Z n <= inject_Z k + (1 # 2)) by exact F1.
      assert (L1 : inject_Z n < inject_Z (k + 1)).
      { rewrite inject_Z_plus. change (inject_Z 1) with 1. lra. }
      assert (L2 : inject_Z k < inject_Z (n + 1)) by lra.
      rewrite <- Zlt_Qlt in L1, L2. lia. }
    assert (F' : Qfloor (val (of_Z k) + (1 # 2)) = k) by (rewrite VK; exact F).
    rewrite EK at 1. unfold Math_round. rewrite <- EK. cbv zeta. rewrite !F'.
    destruct (Z.eqb_spec k 0); [contradiction | reflexivity].
Qed.

End Arrival.

End JourneyFacts.

(** ** The delay the card reports *)

Module DelayShown.

Import Number NumberFacts DateFacts DelayFacts RoundFacts JourneyFacts DelayClaims.
Local Open Scope Q_scope.

Section Shown.

Variable Date_parse : string -> option Z.
Variable bus : BusData.
Variables S A E : Z.
Hypothesis presentE : Spec.present (expectedDeparture bus).
Hypothesis presentS : Spec.present (scheduledDeparture bus).
Hypothesis parseS : new_Date Date_parse (scheduledDeparture bus) = Some S.
Hypothesis parseA : new_Date Date_parse (Some (scheduledArrival bus)) = Some A.
Hypothesis parseE : new_Date Date_parse (expectedDeparture bus) = Some E.

Lemma getCurrentDelay_delayAt w :
  eval (getCurrentDelay Date_parse bus) w = Some (delayAt S A E (clock w)).
Proof.
  pose proof presentE as He. pose proof presentS as Hs.
  apply present_truthy in He, Hs.
  unfold eval. rewrite getCurrentDelay_truthy by assumption.
  rewrite parseS, parseA, parseE, minute_ms. reflexivity.
Qed.

Lemma validS : validTime S.
Proof. apply (new_Date_valid _ _ parseS). Qed.

Lemma validA : validTime A.
Proof. apply (new_Date_valid _ _ parseA). Qed.

Lemma validE : validTime E.
Proof. apply (new_Date_valid _ _ parseE). Qed.

Lemma renderDelay_delayAt w :
  eval (renderDelay Date_parse bus) w =
  let d := delayAt S A E (clock w) in
  if lt (Math_abs d) (of_Z 1) then Some onTimeBadge
  else if gt d (of_Z 0) then Some (behindBadge d) else Some (aheadBadge d).
Proof. rewrite renderDelay_run, getCurrentDelay_delayAt. reflexivity. Qed.

End Shown.

(** How a finite delay is shown, by its sign. *)
Lemma badge_by_sign d :
  fin d ->
  let shown :=
    if lt (Math_abs d) (of_Z 1) then Some onTimeBadge
    else if gt d (of_Z 0) then Some (behindBadge d) else Some (aheadBadge d) in
  (val d == 0 -> shown = Some onTimeBadge) /\
  (0 <= val d -> shown = Some onTimeBadge \/ shown = Some (behindBadge d)) /\
  (val d <= 0 -> shown = Some onTimeBadge \/ shown = Some (aheadBadge d)).
Proof.
  intros Hf. cbv zeta.
  destruct (@Math_abs_fin d Hf) as [Fa Va].
  destruct (@of_Z_exact 1) as [F1 V1]; [reflexivity|].
  change (inject_Z 1) with 1 in V1.
  destruct (lt (Math_abs d) (of_Z 1)) eqn:L.
  - repeat split; auto.
  - assert (N : ~ Qabs (val d) < 1).
    { intros C. rewrite <- Va, <- V1 in C.
      apply (@lt_fin _ _ Fa F1) in C. congruence. }
    repeat split.
    + intros Z0. exfalso. apply N. rewrite Z0. reflexivity.
    + intros P. right. rewrite Qabs_pos in N by exact P.
      assert (G : gt d (of_Z 0) = true).
      { unfold gt. rewrite of_Z_0. apply lt_fin; [exact I | exact Hf|].
        cbn [val]. lra. }
      rewrite G. reflexivity.
    + intros P. right. rewrite Qabs_neg in N by exact P.
      assert (G : gt d (of_Z 0) = false).
      { apply not_true_is_false. intros C. unfold gt in C. rewrite of_Z_0 in C.
        apply lt_fin in C; [|exact I | exact Hf]. cbn [val] in C. lra. }
      rewrite G. reflexivity.
Qed.

End DelayShown.

(** ** Properties of the reported delay *)

Module DelayProperties.

Import Number NumberFacts DateFacts DelayFacts RoundFacts JourneyFacts.
Import DelayClaims DelayShown.
Local Open Scope Q_scope.

Section Reported.

Variable Date_parse : string -> option Z.
Variable bus : BusData.
Variables S A E : Z.
Hypothesis presentE : Spec.present (expectedDeparture bus).
Hypothesis presentS : Spec.present (scheduledDeparture bus).
Hypothesis parseS : new_Date Date_parse (scheduledDeparture bus) = Some S.
Hypothesis parseA : new_Date Date_parse (Some (scheduledArrival bus)) = Some A.
Hypothesis parseE : new_Date Date_parse (expectedDeparture bus) = Some E.

Lemma vS : validTime S.
Proof. apply (validS _ _ parseS). Qed.

Lemma vA : validTime A.
Proof. apply (validA _ _ parseA). Qed.

Lemma vE : validTime E.
Proof. apply (validE _ _ parseE). Qed.

(** With both departures present the window opens at the expected
    departure. *)
Lemma active_between w :
  validTime (clock w) ->
  eval (isActiveBus Date_parse bus) w = true ->
  (E <= clock w <= A)%Z.
Proof.
  intros Hn. unfold eval. rewrite isActiveBus_run. cbn [fst].
  assert (D : departureTime bus = expectedDeparture bus).
  { unfold departureTime, or_else.
    rewrite (proj1 (present_truthy _) presentE). reflexivity. }
  rewrite D, parseE, parseA. cbn [getTime].
  rewrite andb_true_iff, !le_time by (assumption || apply vE || apply vA).
  tauto.
Qed.

(** X1.  When the two scheduled instants differ the delay is a finite
    number: neither NaN nor an infinity. *)
Theorem getCurrentDelay_finite w :
  S <> A -> validTime (clock w) ->
  exists d, eval (getCurrentDelay Date_parse bus) w = Some d /\ fin d.
Proof.
  intros J Hn. exists (delayAt S A E (clock w)).
  split; [apply getCurrentDelay_delayAt; assumption|].
  apply delayAt_finite; assumption || apply vS || apply vA || apply vE.
Qed.

Lemma shown_by_value w :
  S <> A -> validTime (clock w) ->
  (delayValue S A E (clock w) == 0 ->
   (exists s, eval (getCurrentDelay Date_parse bus) w = Some (S754_zero s)) /\
   eval (renderDelay Date_parse bus) w = Some onTimeBadge) /\
  (0 <= delayValue S A E (clock w) ->
   eval (renderDelay Date_parse bus) w = Some onTimeBadge \/
   eval (renderDelay Date_parse bus) w
   = Some (behindBadge (delayAt S A E (clock w)))) /\
  (delayValue S A E (clock w) <= 0 ->
   eval (renderDelay Date_parse bus) w = Some onTimeBadge \/
   eval (renderDelay Date_parse bus) w
   = Some (aheadBadge (delayAt S A E (clock w)))).
Proof.
  intros J Hn.
  destruct (@delayAt_finite S A E vS vA vE J (clock w) Hn) as [Fd Vd].
  rewrite (renderDelay_delayAt _ _ presentE presentS parseS parseA parseE).
  rewrite (getCurrentDelay_delayAt _ _ presentE presentS parseS parseA parseE).
  destruct (@badge_by_sign (delayAt S A E (clock w)) Fd) as (B0 & B1 & B2).
  rewrite <- Vd. split; [|split; assumption].
  intros Z0. split; [|exact (B0 Z0)].
  destruct (@fin_val_zero _ Fd Z0) as [s Es]. exists s.
  rewrite Es. reflexivity.
Qed.

(** X2.  At the scheduled departure nothing has elapsed: the delay is zero
    and the badge reads On Time, whatever the expected departure. *)
Theorem delay_at_scheduled_departure w :
  S <> A -> clock w = S ->
  (exists s, eval (getCurrentDelay Date_parse bus) w = Some (S754_zero s)) /\
  eval (renderDelay Date_parse bus) w = Some onTimeBadge.
Proof.
  intros J Hc.
  assert (Hn : validTime (clock w)) by (rewrite Hc; apply vS).
  apply (proj1 (@shown_by_value w J Hn)). rewrite Hc. apply delayValue_departure.
Qed.

(** X3.  A bus expected at its scheduled departure has no delay at any
    instant: the badge reads On Time. *)
Theorem delay_of_punctual_bus w :
  S <> A -> E = S -> validTime (clock w) ->
  (exists s, eval (getCurrentDelay Date_parse bus) w = Some (S754_zero s)) /\
  eval (renderDelay Date_parse bus) w = Some onTimeBadge.
Proof.
  intros J HE Hn.
  apply (proj1 (@shown_by_value w J Hn)). apply delayValue_on_time, HE.
Qed.

(** X4.  On a schedule whose departure and arrival differ, while a bus that
    departs late is active its badge never reads ahead: it is On Time or the
    minutes behind. *)
Theorem late_bus_shown_behind w :
  S <> A -> (S <= E)%Z -> validTime (clock w) ->
  eval (isActiveBus Date_parse bus) w = true ->
  eval (renderDelay Date_parse bus) w = Some onTimeBadge \/
  eval (renderDelay Date_parse bus) w
  = Some (behindBadge (delayAt S A E (clock w))).
Proof.
  intros J HE Hn Ha. pose proof (@active_between w Hn Ha) as Hw.
  assert (J' : (S < A)%Z) by lia.
  apply (proj1 (proj2 (@shown_by_value w J Hn))).
  rewrite <- (delayValue_departure S A E).
  apply delayValue_mono; lia.
Qed.

(** X5.  From the scheduled departure on, a bus that departs early is
    never shown behind: its badge is On Time or the minutes ahead. *)
Theorem early_bus_shown_ahead w :
  (S < A)%Z -> (E <= S)%Z -> validTime (clock w) -> (S <= clock w)%Z ->
  eval (renderDelay Date_parse bus) w = Some onTimeBadge \/
  eval (renderDelay Date_parse bus) w
  = Some (aheadBadge (delayAt S A E (clock w))).
Proof.
  intros J HE Hn Hc. assert (J' : S <> A) by lia.
  apply (proj2 (proj2 (@shown_by_value w J' Hn))).
  rewrite <- (delayValue_departure S A E).
  apply delayValue_anti; lia.
Qed.

(** X6.  Before the scheduled departure the proportion of the journey is
    negative and the sign turns: an early bus, already active, is shown On
    Time or behind. *)
Theorem early_bus_before_departure w :
  (S < A)%Z -> (E <= S)%Z -> validTime (clock w) -> (clock w <= S)%Z ->
  eval (renderDelay Date_parse bus) w = Some onTimeBadge \/
  eval (renderDelay Date_parse bus) w
  = Some (behindBadge (delayAt S A E (clock w))).
Proof.
  intros J HE Hn Hc. assert (J' : S <> A) by lia.
  apply (proj1 (proj2 (@shown_by_value w J' Hn))).
  rewrite <- (delayValue_departure S A E).
  apply delayValue_anti; lia.
Qed.

(** X7.  With an expected departure not after the scheduled one the delay
    does not increase as the clock advances. *)
Theorem getCurrentDelay_antitone w1 w2 :
  (S < A)%Z -> (E <= S)%Z ->
  validTime (clock w1) -> validTime (clock w2) ->
  (clock w1 <= clock w2)%Z ->
  exists d1 d2,
    eval (getCurrentDelay Date_parse bus) w1 = Some d1 /\
    eval (getCurrentDelay Date_parse bus) w2 = Some d2 /\
    le d2 d1 = true.
Proof.
  intros J HE H1 H2 H12. assert (J' : S <> A) by lia.
  exists (delayAt S A E (clock w1)), (delayAt S A E (clock w2)).
  rewrite !(getCurrentDelay_delayAt _ _ presentE presentS parseS parseA parseE).
  repeat split.
  destruct (@delayAt_finite S A E vS vA vE J' (clock w1) H1) as [F1 V1].
  destruct (@delayAt_finite S A E vS vA vE J' (clock w2) H2) as [F2 V2].
  rewrite le_fin by assumption. rewrite V1, V2.
  apply delayValue_anti; assumption.
Qed.

(** X8.  At the scheduled arrival the whole raw delay is reported: when
    the expected departure is [k] whole minutes after the scheduled one the
    delay is exactly [k]. *)
Theorem delay_at_scheduled_arrival w k :
  S <> A -> (E - S = 60000 * k)%Z -> clock w = A ->
  eval (getCurrentDelay Date_parse bus) w = Some (of_Z k).
Proof.
  intros J Hk Hc.
  rewrite (getCurrentDelay_delayAt _ _ presentE presentS parseS parseA parseE).
  rewrite Hc. f_equal. apply delayAt_arrival; assumption || apply vS || apply vA || apply vE.
Qed.

End Reported.

(** X9.  [getCurrentDelay] returns null exactly when the expected or the
    scheduled departure is missing or empty. *)
Theorem getCurrentDelay_null_iff Date_parse bus w :
  eval (getCurrentDelay Date_parse bus) w = None <->
  truthy (expectedDeparture bus) = false \/
  truthy (scheduledDeparture bus) = false.
Proof.
  unfold eval. split.
  - intros H.
    destruct (truthy (expectedDeparture bus)) eqn:He; [|auto].
    destruct (truthy (scheduledDeparture bus)) eqn:Hs; [|auto].
    rewrite getCurrentDelay_truthy in H by assumption. discriminate.
  - intros H. rewrite getCurrentDelay_falsy by exact H. reflexivity.
Qed.

End DelayProperties.

(** ** Properties of the card and of its handler *)

Module CardProperties.

Import Number NumberFacts DateFacts DelayClaims DelayShown.

Section Rendered.

Variable Date_parse : string -> option Z.
Variable formatDateTime : option string -> string.
Variable placeBet : BetRequest -> Store -> Store.

Lemma renderDelay_world bus w : exec (renderDelay Date_parse bus) w = w.
Proof.
  pose proof (getCurrentDelay_world Date_parse bus w) as Hw.
  unfold exec, renderDelay, bind in *.
  destruct (getCurrentDelay Date_parse bus w) as [[d|] w']; cbn [snd] in *;
    [|exact Hw].
  destruct (lt (Math_abs d) (of_Z 1)); [exact Hw|].
  destruct (gt d (of_Z 0)); exact Hw.
Qed.

Lemma BusCard_run bus betAmount w :
  BusCard Date_parse formatDateTime bus betAmount w =
  (let active := eval (isActiveBus Date_parse bus) w in
   let r := eval (render Date_parse bus betAmount) w in
   {| routeNumberClass :=
        if active then "bg-green-500 text-white" else "bg-red-500 text-white";
      routeLabel := routeNumber bus;
      delayBadge :=
        if active then eval (renderDelay Date_parse bus) w else None;
      fromText := origin bus;
      toText := destination bus;
      departureText := formatDateTime (departureTime bus);
      arrivalText := formatDateTime (Some (scheduledArrival bus));
      directionText := direction bus;
      operatorText := operator bus;
      busIdText := vehicleId bus;
      lastUpdated := formatDateTime (Some (recordedAt bus));
      betControls :=
        if active
        then Some {| input_max := balance (store w);
                     input_value := betAmount;
                     early_disabled := negb (canPlaceBet r);
                     late_disabled := negb (canPlaceBet r);
                     betNote :=
                       match existingBet r with
                       | Some b => Some (existingBetNote b)
                       | None => None
                       end |}
        else None |}, w).
Proof.
  assert (P : isActiveBus Date_parse bus w
              = (eval (isActiveBus Date_parse bus) w, w)) by reflexivity.
  assert (R : renderDelay Date_parse bus w
              = (eval (renderDelay Date_parse bus) w, w)).
  { pose proof (renderDelay_world bus w) as Hw. unfold exec, eval in *.
    destruct (renderDelay Date_parse bus w) as [b w']. cbn [fst snd] in *.
    subst w'. reflexivity. }
  assert (Q : render Date_parse bus betAmount w
              = (eval (render Date_parse bus betAmount) w, w))
    by (unfold eval; rewrite render_run; reflexivity).
  unfold BusCard, bind, useUserStore. rewrite Q, !P. cbv zeta.
  destruct (eval (isActiveBus Date_parse bus) w) eqn:Ea.
  - rewrite R, P. reflexivity.
  - unfold ret. rewrite P. reflexivity.
Qed.

(** X10.  Rendering the card is read-only: it places no bet, sends no
    notification and leaves the store as it is. *)
Theorem BusCard_read_only bus betAmount w :
  exec (BusCard Date_parse formatDateTime bus betAmount) w = w.
Proof. unfold exec. rewrite BusCard_run. reflexivity. Qed.

Lemma bind_run (X Y : Type) (m : M X) (f : X -> M Y) w :
  bind m f w = f (eval m w) (exec m w).
Proof. unfold bind, eval, exec. destruct (m w). reflexivity. Qed.

Lemma isActiveBus_world bus w : exec (isActiveBus Date_parse bus) w = w.
Proof. reflexivity. Qed.

Lemma render_world bus betAmount w :
  exec (render Date_parse bus betAmount) w = w.
Proof. unfold exec. rewrite render_run. reflexivity. Qed.

Lemma badge_world bus (active : bool) w :
  exec (if active then renderDelay Date_parse bus else ret None) w = w.
Proof. destruct active; [apply renderDelay_world | reflexivity]. Qed.

Lemma clockShows_again t t' w :
  exec (clockShows t) (exec (clockShows t') w) = exec (clockShows t) w.
Proof. reflexivity. Qed.

(** The betting controls of the card whose five clock readings are given. *)
Lemma BusCardTimed_controls bus betAmount t1 t2 t3 t4 t5 w :
  betControls
    (eval (BusCardTimed Date_parse formatDateTime bus betAmount t1 t2 t3 t4 t5)
          w)
  = if eval (isActiveBus Date_parse bus) (exec (clockShows t5) w)
    then
      let r := eval (render Date_parse bus betAmount) (exec (clockShows t1) w) in
      Some {| input_max := balance (store w);
              input_value := betAmount;
              early_disabled := negb (canPlaceBet r);
              late_disabled := negb (canPlaceBet r);
              betNote :=
                match existingBet r with
                | Some b => Some (existingBetNote b)
                | None => None
                end |}
    else None.
Proof.
  unfold eval at 1. unfold BusCardTimed. rewrite !bind_run.
  cbn [ret fst betControls].
  change (exec useUserStore w) with w. change (eval useUserStore w) with (store w).
  rewrite !badge_world, !isActiveBus_world, !render_world, !clockShows_again.
  reflexivity.
Qed.

(** X11.  The card offers an enabled bet button, early and late alike,
    exactly when the bus is active at the clock reading made for the
    controls and at the one made for [canPlaceBet], no unresolved bet on it
    is in the store and the balance covers the stake. *)
Theorem bet_buttons_enabled_iff bus betAmount t1 t2 t3 t4 t5 w :
  (exists c,
     betControls
       (eval (BusCardTimed Date_parse formatDateTime bus betAmount
                           t1 t2 t3 t4 t5) w)
     = Some c /\
     early_disabled c = false /\ late_disabled c = false) <->
  eval (isActiveBus Date_parse bus) (exec (clockShows t5) w) = true /\
  eval (isActiveBus Date_parse bus) (exec (clockShows t1) w) = true /\
  (forall b, In b (bets (store w)) -> busId b = id bus -> resolved b = true) /\
  ge (balance (store w)) betAmount = true.
Proof.
  rewrite BusCardTimed_controls. cbv zeta.
  assert (C : canPlaceBet (eval (render Date_parse bus betAmount)
                                (exec (clockShows t1) w))
              = eval (isActiveBus Date_parse bus) (exec (clockShows t1) w)
                && negb (match find (fun b => (busId b =? id bus)%string
                                              && negb (resolved b))
                                    (bets (store w))
                         with Some _ => true | None => false end)
                && ge (balance (store w)) betAmount).
  { unfold eval at 1. rewrite render_run. reflexivity. }
  rewrite !C, <- existingBet_none. clear C.
  set (a5 := eval (isActiveBus Date_parse bus) (exec (clockShows t5) w)).
  set (a1 := eval (isActiveBus Date_parse bus) (exec (clockShows t1) w)).
  clearbody a5 a1. destruct a5; split.
  - intros (c & [= <-] & H & _). cbn [early_disabled] in H.
    apply negb_false_iff in H.
    apply andb_true_iff in H. destruct H as [H1 H2].
    apply andb_true_iff in H1. destruct H1 as [H0 H1].
    split; [reflexivity|]. split; [exact H0|]. split; [|exact H2].
    destruct (find _ (bets (store w))); [discriminate | reflexivity].
  - intros (_ & H0 & F & G). eexists. split; [reflexivity|].
    cbn [early_disabled late_disabled]. rewrite H0, F, G.
    split; reflexivity.
  - intros (c & H & _). discriminate.
  - intros (H & _). discriminate.
Qed.

(** With the five readings at one instant the timed card is the card. *)
Lemma BusCardTimed_frozen bus betAmount w :
  betControls
    (eval (BusCardTimed Date_parse formatDateTime bus betAmount
             (clock w) (clock w) (clock w) (clock w) (clock w)) w)
  = betControls (eval (BusCard Date_parse formatDateTime bus betAmount) w).
Proof.
  rewrite BusCardTimed_controls.
  assert (W : exec (clockShows (clock w)) w = w) by (destruct w; reflexivity).
  rewrite W. symmetry. unfold eval at 1. rewrite BusCard_run. reflexivity.
Qed.

(** X12.  The note on an existing bet is shown only beside disabled
    buttons, and it reports an unresolved bet of the store on this bus. *)
Theorem bet_note_shown bus betAmount w c note :
  betControls (eval (BusCard Date_parse formatDateTime bus betAmount) w)
  = Some c ->
  betNote c = Some note ->
  early_disabled c = true /\ late_disabled c = true /\
  exists b, In b (bets (store w)) /\ busId b = id bus /\ resolved b = false /\
            note = existingBetNote b.
Proof.
  unfold eval at 1. rewrite BusCard_run. cbn [fst betControls].
  unfold eval at 2 3 4. rewrite render_run. cbn [fst canPlaceBet existingBet].
  destruct (eval (isActiveBus Date_parse bus) w); [|discriminate].
  intros [= <-]. cbn.
  destruct (find _ (bets (store w))) as [b|] eqn:F; [|discriminate].
  intros [= <-]. split; [reflexivity|]. split; [reflexivity|].
  apply find_some in F. destruct F as [Hin Hb].
  apply andb_true_iff in Hb. destruct Hb as [Hi Hr].
  exists b. split; [exact Hin|]. split; [apply String.eqb_eq, Hi|].
  split; [apply negb_true_iff, Hr | reflexivity].
Qed.

(** X13.  The card shows a delay badge exactly when the bus is active and
    both departures are present. *)
Theorem delay_badge_shown_iff bus betAmount w :
  delayBadge (eval (BusCard Date_parse formatDateTime bus betAmount) w) <> None
  <->
  eval (isActiveBus Date_parse bus) w = true /\
  truthy (expectedDeparture bus) = true /\
  truthy (scheduledDeparture bus) = true.
Proof.
  unfold eval at 1. rewrite BusCard_run. cbn [fst delayBadge].
  destruct (eval (isActiveBus Date_parse bus) w).
  - rewrite renderDelay_run. unfold eval.
    destruct (truthy (expectedDeparture bus)) eqn:He.
    + destruct (truthy (scheduledDeparture bus)) eqn:Hs.
      * rewrite getCurrentDelay_truthy by assumption. cbn [fst].
        split; [auto|]. intros _.
        destruct (lt _ _); [discriminate|]. destruct (gt _ _); discriminate.
      * rewrite getCurrentDelay_falsy by auto. cbn [fst].
        split; [congruence | intros (_ & _ & H); discriminate].
    + rewrite getCurrentDelay_falsy by auto. cbn [fst].
      split; [congruence | intros (_ & H & _); discriminate].
  - split; [congruence | intros (H & _); discriminate].
Qed.

(** X14.  A bus whose effective departure or arrival does not parse, or
    whose effective departure is after its arrival, is not active: the
    route is shown red, without badge and without betting controls, and no
    bet can be placed. *)
Theorem never_active bus betAmount w :
  new_Date Date_parse (departureTime bus) = None \/
  new_Date Date_parse (Some (scheduledArrival bus)) = None \/
  (exists dep arr,
     new_Date Date_parse (departureTime bus) = Some dep /\
     new_Date Date_parse (Some (scheduledArrival bus)) = Some arr /\
     (arr < dep)%Z /\ validTime (clock w)) ->
  eval (isActiveBus Date_parse bus) w = false /\
  canPlaceBet (eval (render Date_parse bus betAmount) w) = false /\
  let card := eval (BusCard Date_parse formatDateTime bus betAmount) w in
  routeNumberClass card = "bg-red-500 text-white"%string /\
  delayBadge card = None /\ betControls card = None.
Proof.
  intros H.
  assert (N : eval (isActiveBus Date_parse bus) w = false).
  { unfold eval. rewrite isActiveBus_run. cbn [fst].
    destruct H as [H|[H|(dep & arr & Hd & Ha & Hlt & Hn)]].
    - rewrite H. reflexivity.
    - rewrite H. cbn [getTime]. rewrite le_nan_r. apply andb_false_r.
    - rewrite Hd, Ha. cbn [getTime]. apply not_true_is_false. intros C.
      apply andb_true_iff in C.
      rewrite !le_time in C
        by (assumption || apply (new_Date_valid _ _ Hd)
            || apply (new_Date_valid _ _ Ha)).
      lia. }
  split; [exact N|]. split.
  - unfold eval at 1. rewrite render_run. cbn [fst canPlaceBet].
    rewrite N. reflexivity.
  - unfold eval at 1. rewrite BusCard_run. cbn [fst]. rewrite N.
    repeat split.
Qed.

(** X15.  A click handled on a rendering that found the bet placeable
    calls the store's [placeBet] once, with this bus, the stake and the
    prediction, then notifies once; the clock is not touched. *)
Theorem handlePlaceBet_places bus betAmount w prediction w' :
  eval (isActiveBus Date_parse bus) w = true ->
  (forall b, In b (bets (store w)) -> busId b = id bus -> resolved b = true) ->
  ge (balance (store w)) betAmount = true ->
  let request := {| req_busId := id bus; req_amount := betAmount;
                    req_prediction := prediction;
                    req_routeNumber := routeNumber bus |} in
  exec (handlePlaceBet placeBet (eval (render Date_parse bus betAmount) w)
                       prediction) w'
  = {| clock := clock w';
       store := placeBet request (store w');
       events :=
         events w'
         ++ [PlaceBetCall request;
             ToastCall
               {| title := "Bet Placed!";
                  description :=
                    [Txt pound; Num betAmount; Txt " on bus ";
                     Txt (routeNumber bus); Txt " arriving ";
                     Txt (Prediction_str prediction)] |}] |}.
Proof.
  intros Ha Hb Hg request.
  assert (C : canPlaceBet (eval (render Date_parse bus betAmount) w) = true).
  { unfold eval at 1. rewrite render_run. cbn [fst canPlaceBet].
    rewrite Ha, Hg. apply existingBet_none in Hb. rewrite Hb. reflexivity. }
  unfold exec, handlePlaceBet. rewrite C. cbn [negb].
  unfold eval. rewrite render_run. cbn [fst r_bus r_betAmount].
  unfold bind, call_placeBet, toast. cbn [snd clock store events].
  rewrite <- app_assoc. reflexivity.
Qed.

End Rendered.

End CardProperties.

(** ** How far rounding moves a value *)

Module ErrorFacts.

Import Number NumberFacts DateFacts DelayFacts RoundFacts JourneyFacts.
Local Open Scope Q_scope.

#[local] Existing Instance V_proper.







Lemma Qabs_pos_iff x : ~ x == 0 -> 0 < Qabs x.
Proof.
  intros H. destruct (Q_dec x 0) as [[Hx|Hx]|Hx]; [| |contradiction].
  - rewrite Qabs_neg; lra.
  - rewrite Qabs_pos; lra.
Qed.






Section Chain.

(** The raw delay, the time elapsed and the journey time, in milliseconds. *)
Variables a b c : Q.
Hypothesis a_int : a == 0 \/ 1 <= Qabs a.
Hypothesis b_int : b == 0 \/ 1 <= Qabs b.
Hypothesis c_int : 1 <= Qabs c.
Hypothesis c_le : Qabs c <= pow2 54.




End Chain.

End ErrorFacts.

(** ** The delay against the exact formula *)

Module DelayAccuracy.

Import Number NumberFacts DateFacts DelayFacts RoundFacts JourneyFacts.
Import ErrorFacts DelayClaims DelayShown Examples.
Local Open Scope Q_scope.

#[local] Existing Instance V_proper.




Section Accuracy.

Variables S A E now : Z.
Hypothesis validS : validTime S.
Hypothesis validA : validTime A.
Hypothesis validE : validTime E.
Hypothesis validNow : validTime now.
Hypothesis journey : S <> A.



End Accuracy.



End DelayAccuracy.

(** ** The further properties at the inputs of the examples *)

Module MoreInstances.

Import Number NumberFacts DateFacts Examples.
Import DelayClaims DelayShown DelayProperties CardProperties DelayAccuracy.
Local Open Scope string_scope.

(** Hypotheses settled by evaluation: a parsed timestamp, a present
    field. *)
Ltac parsed := vm_compute; reflexivity.
Ltac shown := eexists; split; [reflexivity | discriminate].


Lemma getCurrentDelay_finite_witness :
  exists d, eval (getCurrentDelay parseISO lateBus) halfPast = Some d /\ fin d.
Proof.
  apply (@getCurrentDelay_finite parseISO lateBus
           1704103200000 1704106800000 1704103800000);
    [shown | shown | parsed | parsed | parsed | discriminate
    | vm_compute; discriminate].
Defined.

Lemma delay_at_scheduled_departure_witness :
  (exists s, eval (getCurrentDelay parseISO lateBus) tenSharp
             = Some (S754_zero s)) /\
  eval (renderDelay parseISO lateBus) tenSharp = Some onTimeBadge.
Proof.
  apply (@delay_at_scheduled_departure parseISO lateBus
           1704103200000 1704106800000 1704103800000);
    [shown | shown | parsed | parsed | parsed | discriminate | parsed].
Defined.

Lemma delay_of_punctual_bus_witness :
  (exists s, eval (getCurrentDelay parseISO punctualBus) halfPast
             = Some (S754_zero s)) /\
  eval (renderDelay parseISO punctualBus) halfPast = Some onTimeBadge.
Proof.
  apply (@delay_of_punctual_bus parseISO punctualBus
           1704103200000 1704106800000 1704103200000);
    [shown | shown | parsed | parsed | parsed | discriminate | reflexivity
    | vm_compute; discriminate].
Defined.

Lemma late_bus_shown_behind_witness :
  eval (renderDelay parseISO lateBus) halfPast = Some onTimeBadge \/
  eval (renderDelay parseISO lateBus) halfPast
  = Some (behindBadge
            (delayAt 1704103200000 1704106800000 1704103800000
                     (clock halfPast))).
Proof.
  apply (@late_bus_shown_behind parseISO lateBus
           1704103200000 1704106800000 1704103800000);
    [shown | shown | parsed | parsed | parsed | discriminate | discriminate
    | vm_compute; discriminate | parsed].
Defined.

Lemma early_bus_shown_ahead_witness :
  eval (renderDelay parseISO earlyBus) halfPast = Some onTimeBadge \/
  eval (renderDelay parseISO earlyBus) halfPast
  = Some (aheadBadge
            (delayAt 1704103200000 1704106800000 1704102720000
                     (clock halfPast))).
Proof.
  apply (@early_bus_shown_ahead parseISO earlyBus
           1704103200000 1704106800000 1704102720000);
    [shown | shown | parsed | parsed | parsed | reflexivity | discriminate
    | vm_compute; discriminate | vm_compute; discriminate].
Defined.

Lemma early_bus_before_departure_witness :
  eval (renderDelay parseISO earlyBus) nineFiftyFive = Some onTimeBadge \/
  eval (renderDelay parseISO earlyBus) nineFiftyFive
  = Some (behindBadge
            (delayAt 1704103200000 1704106800000 1704102720000
                     (clock nineFiftyFive))).
Proof.
  apply (@early_bus_before_departure parseISO earlyBus
           1704103200000 1704106800000 1704102720000);
    [shown | shown | parsed | parsed | parsed | reflexivity | discriminate
    | vm_compute; discriminate | vm_compute; discriminate].
Defined.

Lemma getCurrentDelay_antitone_witness :
  exists d1 d2,
    eval (getCurrentDelay parseISO earlyBus) tenFifteen = Some d1 /\
    eval (getCurrentDelay parseISO earlyBus) quarterTo = Some d2 /\
    le d2 d1 = true.
Proof.
  apply (@getCurrentDelay_antitone parseISO earlyBus
           1704103200000 1704106800000 1704102720000);
    [shown | shown | parsed | parsed | parsed | reflexivity | discriminate
    | vm_compute; discriminate | vm_compute; discriminate
    | vm_compute; discriminate].
Defined.

Lemma delay_at_scheduled_arrival_witness :
  eval (getCurrentDelay parseISO lateBus) eleven = Some (of_Z 10).
Proof.
  apply (@delay_at_scheduled_arrival parseISO lateBus
           1704103200000 1704106800000 1704103800000);
    [shown | shown | parsed | parsed | parsed | discriminate | reflexivity
    | parsed].
Defined.

Lemma getCurrentDelay_null_iff_witness :
  eval (getCurrentDelay parseISO unrevisedBus) halfPast = None.
Proof.
  apply (proj2 (getCurrentDelay_null_iff parseISO unrevisedBus halfPast)).
  left. reflexivity.
Defined.

Lemma bet_buttons_enabled_iff_witness :
  exists c,
    betControls
      (eval (BusCardTimed parseISO showTimestamp lateBus (of_Z 1)
               1704105000000 1704105000001 1704105000002 1704105000003
               1704105000004) halfPast)
    = Some c /\
    early_disabled c = false /\ late_disabled c = false.
Proof.
  apply (proj2 (bet_buttons_enabled_iff parseISO showTimestamp lateBus
                  (of_Z 1) 1704105000000 1704105000001 1704105000002
                  1704105000003 1704105000004 halfPast)).
  split; [parsed|]. split; [parsed|]. split; [intros b []|parsed].
Defined.

Lemma bet_note_shown_witness :
  exists b, In b (bets (store halfPastBetting)) /\ busId b = id lateBus /\
            resolved b = false /\
            existingBetNote openBet = existingBetNote b.
Proof.
  eapply (@bet_note_shown parseISO showTimestamp lateBus (of_Z 1)
            halfPastBetting).
  - vm_compute. reflexivity.
  - reflexivity.
Defined.

Lemma delay_badge_shown_iff_witness :
  delayBadge (eval (BusCard parseISO showTimestamp lateBus (of_Z 1)) halfPast)
  <> None.
Proof.
  apply (proj2 (delay_badge_shown_iff parseISO showTimestamp lateBus
                  (of_Z 1) halfPast)).
  split; [parsed|]. split; reflexivity.
Defined.

Lemma never_active_witness :
  eval (isActiveBus parseISO garbledBus) halfPast = false /\
  eval (isActiveBus parseISO stuckBus) halfPast = false.
Proof.
  split.
  - apply (@never_active parseISO showTimestamp garbledBus (of_Z 1) halfPast).
    right. left. reflexivity.
  - apply (@never_active parseISO showTimestamp stuckBus (of_Z 1) halfPast).
    right. right. exists 1704108600000%Z, 1704106800000%Z.
    split; [parsed|]. split; [parsed|].
    split; [reflexivity | vm_compute; discriminate].
Defined.

Lemma handlePlaceBet_places_witness :
  events (exec (handlePlaceBet recordBet
                  (eval (render parseISO lateBus (of_Z 1)) halfPast) late)
               halfPast)
  = [PlaceBetCall {| req_busId := id lateBus; req_amount := of_Z 1;
                     req_prediction := late;
                     req_routeNumber := routeNumber lateBus |};
     ToastCall {| title := "Bet Placed!";
                  description :=
                    [Txt pound; Num (of_Z 1); Txt " on bus ";
                     Txt (routeNumber lateBus); Txt " arriving ";
                     Txt "late"] |}].
Proof.
  rewrite (@handlePlaceBet_places parseISO recordBet lateBus (of_Z 1)
             halfPast late halfPast);
    [reflexivity | parsed | intros b [] | parsed].
Defined.

End MoreInstances.
